(** * wsrpc.ReadWriteCloser: a byte stream over a WebSocket connection

    Shallow embedding of [internal/pkg/wsrpc/rwc.go].  The three methods
    [Read], [Write] and [Close] are written as programs over two kinds of
    atomic actions: a critical section on the fields of the adapter (the
    statements between [rwc.mu.Lock()] and [rwc.mu.Unlock()]) and a blocking
    call into the connection ([ws.NextReader], [r.Read], [w.Close], ...).
    The programs are run sequentially against any environment that answers
    the calls, interleaved with each other by a scheduler, and run against
    a simulated connection that delivers and collects whole messages. *)

From Stdlib Require Import List Arith Bool Lia.
From Stdlib Require Strings.String.
Import ListNotations.
Import String.StringSyntax.

Set Implicit Arguments.

(** ** Data *)

Definition byte := Byte.byte.

(** Handles: [*websocket.Conn], and the dynamic values of the [io.Reader]
    and [io.WriteCloser] interfaces, compared by identity. *)
Definition Conn := nat.
Definition Reader := nat.
Definition Writer := nat.

(** Go's [error] values; a nil error is [None : option error]. *)
Inductive error : Type :=
| EOF                      (* io.EOF *)
| ErrClosedPipe            (* io.ErrClosedPipe *)
| ErrOther (code : nat).   (* any error of the transport *)

(** [websocket.TextMessage] and [websocket.BinaryMessage]. *)
Inductive MessageType : Type := TextMessage | BinaryMessage.

(** The struct, without [mu]: the mutex is the [Lock] action below. *)
Record ReadWriteCloser : Type := {
  ws : option Conn;
  r : option Reader;
  w : option Writer
}.

Definition NewReadWriteCloser (c : option Conn) : ReadWriteCloser :=
  {| ws := c; r := None; w := None |}.

Definition set_r (x : option Reader) (rwc : ReadWriteCloser) : ReadWriteCloser :=
  {| ws := ws rwc; r := x; w := w rwc |}.

Definition set_w (x : option Writer) (rwc : ReadWriteCloser) : ReadWriteCloser :=
  {| ws := ws rwc; r := r rwc; w := x |}.

(** [a == b] on interface values holding handles. *)
Definition same_handle (a b : option nat) : bool :=
  match a, b with
  | Some x, Some y => Nat.eqb x y
  | None, None => true
  | _, _ => false
  end.

(** ** What the connection answers *)

(** A result with an error: [(x, err)] where [x] is meaningful when
    [err == nil]. *)
Inductive res (A : Type) : Type :=
| Ok (a : A)
| Fail (e : error).
Arguments Fail {A} e.

(** [n, err := r.Read(b)] on a non-empty [b]: the bytes stored at the front
    of [b] and the error.  Either at least one byte was read, or an error is
    reported; the result (0, nil), under which the loop of [Read] calls
    again without end, is left out. *)
Inductive read_result : Type :=
| ReadSome (b : byte) (bs : list byte) (err : option error)
| ReadNone (err : error).

Definition read_data (x : read_result) : list byte :=
  match x with
  | ReadSome b bs _ => b :: bs
  | ReadNone _ => []
  end.

Definition read_err (x : read_result) : option error :=
  match x with
  | ReadSome _ _ err => err
  | ReadNone err => Some err
  end.

(** [m, err := w.Write(b)] on a non-empty [b]: the count and the error,
    with the same exclusion of (0, nil). *)
Inductive write_result : Type :=
| WriteSome (m' : nat) (err : option error)   (* m = m' + 1 *)
| WriteNone (err : error).                    (* m = 0 *)

Definition write_count (x : write_result) : nat :=
  match x with
  | WriteSome m' _ => S m'
  | WriteNone _ => 0
  end.

Definition write_err (x : write_result) : option error :=
  match x with
  | WriteSome _ err => err
  | WriteNone err => Some err
  end.

(** The blocking calls, indexed by what they return. *)
Inductive call : Type -> Type :=
| NextReader (c : Conn) : call (res Reader)
| NextWriter (c : Conn) (t : MessageType) : call (res Writer)
| ReaderRead (rd : Reader) (space : nat) : call read_result
| WriterWrite (wr : Writer) (data : list byte) : call write_result
| WriterClose (wr : Writer) : call (option error)
| ConnClose (c : Conn) : call (option error).

(** ** Programs *)

Inductive prog (A : Type) : Type :=
| Ret (a : A)
| Lock (X : Type) (section : ReadWriteCloser -> ReadWriteCloser * X)
       (k : X -> prog A)
| Call (X : Type) (c : call X) (k : X -> prog A).
Arguments Ret {A} a.
Arguments Lock {A X} section k.
Arguments Call {A X} c k.

Fixpoint bind {A B : Type} (P : prog A) (f : A -> prog B) : prog B :=
  match P with
  | Ret a => f a
  | Lock sec k => Lock sec (fun x => bind (k x) f)
  | Call c k => Call c (fun x => bind (k x) f)
  end.

(** [copy(p[n:], d)]: [d] stored in [p] from offset [n], as the reader
    does with the slice it is given. *)
Definition blit (p : list byte) (n : nat) (d : list byte) : list byte :=
  firstn n p ++ firstn (length p - n) d ++ skipn (n + length d) p.

(** *** Read (lines 26-72) *)

(** Lines 30-33. *)
Definition Read_snapshot (rwc : ReadWriteCloser)
  : ReadWriteCloser * (option Conn * option Reader) :=
  (rwc, (ws rwc, r rwc)).

(** Lines 44-50: [true] when the reader was stored. *)
Definition Read_store (rd : Reader) (rwc : ReadWriteCloser)
  : ReadWriteCloser * bool :=
  match ws rwc with
  | None => (rwc, false)
  | Some _ => (set_r (Some rd) rwc, true)
  end.

(** Lines 59-63. *)
Definition Read_clear (rd : Reader) (rwc : ReadWriteCloser)
  : ReadWriteCloser * unit :=
  (if same_handle (r rwc) (Some rd) then set_r None rwc else rwc, tt).

(** Lines 53-69, the loop [for n = 0; n < len(p); { ... }] entered with the
    results [n], [err] and the buffer [p]; what it leaves in them is what
    the bare [return] of line 71 returns.  Every turn that goes round adds
    at least one to [n], so [len(p) - n] turns are all there can be. *)
Fixpoint Read_loop (turns : nat) (rd : Reader) (p : list byte) (n : nat)
    (err : option error) : prog (nat * option error * list byte) :=
  match turns with
  | 0 => Ret (n, err, p)
  | S turns' =>
    if n <? length p then
      Call (ReaderRead rd (length p - n)) (fun x =>
        let p := blit p n (read_data x) in
        let err := read_err x in
        let n := n + length (read_data x) in
        match err with
        | Some EOF => Lock (Read_clear rd) (fun _ => Ret (n, err, p))
        | Some _ => Ret (n, err, p)
        | None => Read_loop turns' rd p n err
        end)
    else Ret (n, err, p)
  end.

Definition Read (p : list byte) : prog (nat * option error * list byte) :=
  Lock Read_snapshot (fun '(conn, rd) =>
    match conn with
    | None => Ret (0, Some ErrClosedPipe, p)
    | Some c =>
      match rd with
      | None =>
        Call (NextReader c) (fun x =>
          match x with
          | Fail err => Ret (0, Some err, p)
          | Ok rd =>
            Lock (Read_store rd) (fun stored =>
              if stored then Read_loop (length p) rd p 0 None
              else Ret (0, Some ErrClosedPipe, p))
          end)
      | Some rd => Read_loop (length p) rd p 0 None
      end
    end).

(** *** Write (lines 75-123) *)

(** Lines 79-82. *)
Definition Write_snapshot (rwc : ReadWriteCloser)
  : ReadWriteCloser * (option Conn * option Writer) :=
  (rwc, (ws rwc, w rwc)).

(** Lines 93-100: [true] when the writer was stored. *)
Definition Write_store (wr : Writer) (rwc : ReadWriteCloser)
  : ReadWriteCloser * bool :=
  match ws rwc with
  | None => (rwc, false)
  | Some _ => (set_w (Some wr) rwc, true)
  end.

(** Lines 112-116. *)
Definition Write_clear (wr : Writer) (rwc : ReadWriteCloser)
  : ReadWriteCloser * unit :=
  (if same_handle (w rwc) (Some wr) then set_w None rwc else rwc, tt).

(** Lines 103-109.  [m, err := w.Write(p[n:])] declares a new [m] and a new
    [err] in the body of the loop: the error of the writer ends the loop
    and goes out of scope with the body.  The loop leaves [n] only. *)
Fixpoint Write_loop (turns : nat) (wr : Writer) (p : list byte) (n : nat)
  : prog nat :=
  match turns with
  | 0 => Ret n
  | S turns' =>
    if n <? length p then
      Call (WriterWrite wr (skipn n p)) (fun x =>
        let n := n + write_count x in
        match write_err x with
        | Some _ => Ret n
        | None => Write_loop turns' wr p n
        end)
    else Ret n
  end.

(** Lines 103-122, entered with the result [err] of the function scope. *)
Definition Write_body (wr : Writer) (p : list byte) (err : option error)
  : prog (nat * option error) :=
  bind (Write_loop (length p) wr p 0) (fun n =>
    match err, n =? length p with
    | None, false => Ret (n, err)
    | _, _ =>
      Call (WriterClose wr) (fun closeErr =>
        Lock (Write_clear wr) (fun _ =>
          Ret (n, match err with None => closeErr | Some _ => err end)))
    end).

Definition Write (p : list byte) : prog (nat * option error) :=
  Lock Write_snapshot (fun '(conn, wr) =>
    match conn with
    | None => Ret (0, Some ErrClosedPipe)
    | Some c =>
      match wr with
      | None =>
        Call (NextWriter c TextMessage) (fun x =>
          match x with
          | Fail err => Ret (0, Some err)
          | Ok wr =>
            Lock (Write_store wr) (fun stored =>
              if stored then Write_body wr p None
              else Call (WriterClose wr) (fun _ => Ret (0, Some ErrClosedPipe)))
          end)
      | Some wr => Write_body wr p None
      end
    end).

(** *** Close (lines 126-148) *)

(** Lines 131-137. *)
Definition Close_take (rwc : ReadWriteCloser)
  : ReadWriteCloser * (option Writer * option Conn) :=
  ({| ws := None; r := None; w := None |}, (w rwc, ws rwc)).

(** Lines 144-147. *)
Definition Close_conn (conn : option Conn) : prog (option error) :=
  match conn with
  | Some c => Call (ConnClose c) (fun err => Ret err)
  | None => Ret None
  end.

Definition Close : prog (option error) :=
  Lock Close_take (fun '(wr, conn) =>
    match wr with
    | Some wr =>
      Call (WriterClose wr) (fun err =>
        match err with
        | Some _ => Ret err
        | None => Close_conn conn
        end)
    | None => Close_conn conn
    end).

(** ** Running programs *)

(** One answered call. *)
Inductive event : Type :=
| Ev (X : Type) (c : call X) (x : X).
Arguments Ev {X} c x.

(** The calls of a trace that close a writer. *)
Definition is_WriterClose (e : event) : bool :=
  match e with
  | Ev (WriterClose _) _ => true
  | _ => false
  end.

(** The bytes a [r.Read] call stored, and whether it reported [io.EOF]. *)
Definition event_data (e : event) : list byte :=
  match e with
  | Ev c x =>
    match c in call X return X -> list byte with
    | ReaderRead _ _ => read_data
    | _ => fun _ => []
    end x
  end.

Definition is_EOF (err : option error) : bool :=
  match err with
  | Some EOF => true
  | _ => false
  end.

Definition event_eof (e : event) : bool :=
  match e with
  | Ev c x =>
    match c in call X return X -> bool with
    | ReaderRead _ _ => fun x => is_EOF (read_err x)
    | _ => fun _ => false
    end x
  end.

(** The bytes all [r.Read] calls of a trace stored, in order. *)
Definition delivered (tr : list event) : list byte :=
  flat_map event_data tr.

(** Some [r.Read] of the trace reported the end of its message. *)
Definition end_of_message (tr : list event) : bool :=
  existsb event_eof tr.

(** What an operation leaves: its results, the fields, the state of the
    environment and the calls made, oldest first. *)
Record outcome (A W : Type) : Type := {
  result : A;
  fields : ReadWriteCloser;
  world : W;
  trace : list event
}.

Section Semantics.

(** Everything outside the adapter: its state and how it answers. *)
Variable World : Type.
Variable handle : forall X : Type, call X -> World -> World * X.

(** One goroutine alone: no other call touches the fields in between. *)
Fixpoint run {A : Type} (P : prog A) (rwc : ReadWriteCloser) (net : World)
  : outcome A World :=
  match P with
  | Ret a => {| result := a; fields := rwc; world := net; trace := [] |}
  | Lock sec k => run (k (snd (sec rwc))) (fst (sec rwc)) net
  | Call c k =>
    let o := run (k (snd (handle c net))) rwc (fst (handle c net)) in
    {| result := result o; fields := fields o; world := world o;
       trace := Ev c (snd (handle c net)) :: trace o |}
  end.

(** The operations of a caller, and a sequence of them one after the
    other. *)
Inductive op : Type :=
| OpRead (p : list byte)
| OpWrite (p : list byte)
| OpClose.

Definition run_op (o : op) (rwc : ReadWriteCloser) (net : World)
  : ReadWriteCloser * World * list event :=
  match o with
  | OpRead p => let x := run (Read p) rwc net in (fields x, world x, trace x)
  | OpWrite p => let x := run (Write p) rwc net in (fields x, world x, trace x)
  | OpClose => let x := run Close rwc net in (fields x, world x, trace x)
  end.

Fixpoint run_ops (os : list op) (rwc : ReadWriteCloser) (net : World)
  : ReadWriteCloser * World * list event :=
  match os with
  | [] => (rwc, net, [])
  | o :: os' =>
    let '(rwc1, net1, tr1) := run_op o rwc net in
    let '(rwc2, net2, tr2) := run_ops os' rwc1 net1 in
    (rwc2, net2, tr1 ++ tr2)
  end.

(** Goroutines interleaved: a configuration holds the fields, the
    environment and what is left of every call in progress.  A step
    starts a new call of any operation, or runs one critical section or
    one blocking call of a call in progress. *)
Inductive task : Type :=
| Task (A : Type) (P : prog A).

Definition start (o : op) : task :=
  match o with
  | OpRead p => Task (Read p)
  | OpWrite p => Task (Write p)
  | OpClose => Task Close
  end.

Record config : Type := {
  c_fields : ReadWriteCloser;
  c_world : World;
  c_pool : list task
}.

Inductive step : config -> config -> Prop :=
| step_start : forall rwc net ts o,
    step {| c_fields := rwc; c_world := net; c_pool := ts |}
         {| c_fields := rwc; c_world := net; c_pool := ts ++ [start o] |}
| step_lock : forall rwc net ts1 ts2 A X
                     (sec : ReadWriteCloser -> ReadWriteCloser * X)
                     (k : X -> prog A),
    step {| c_fields := rwc; c_world := net;
            c_pool := ts1 ++ Task (Lock sec k) :: ts2 |}
         {| c_fields := fst (sec rwc); c_world := net;
            c_pool := ts1 ++ Task (k (snd (sec rwc))) :: ts2 |}
| step_call : forall rwc net ts1 ts2 A X (c : call X) (k : X -> prog A),
    step {| c_fields := rwc; c_world := net;
            c_pool := ts1 ++ Task (Call c k) :: ts2 |}
         {| c_fields := rwc; c_world := fst (handle c net);
            c_pool := ts1 ++ Task (k (snd (handle c net))) :: ts2 |}.

Inductive steps : config -> config -> Prop :=
| steps_refl : forall c, steps c c
| steps_next : forall c1 c2 c3, steps c1 c2 -> step c2 c3 -> steps c1 c3.

(** A fresh adapter, nothing in progress. *)
Definition initial (c : option Conn) (net : World) : config :=
  {| c_fields := NewReadWriteCloser c; c_world := net; c_pool := [] |}.

End Semantics.

(** ** A simulated connection

    The adapter consumes a framed connection that the repository does not
    contain: the type [*websocket.Conn] of the imported package and the
    readers and writers it hands out.  The module below stands in for it
    where a property is about the messages themselves; the properties of
    the earlier sections hold for every environment. *)
Module Sim.

(** The fate of one call: it moves as much as it can; or at most [k+1]
    bytes; or at most [k] bytes and then fails with [ErrOther code]. *)
Inductive fate : Type :=
| Whole
| Part (k : nat)
| Broken (k : nat) (code : nat).

(** Modelled from the spec: the state of the framed connection of its
    section 6, with the inbound messages still to come, the message being
    read, the message being written and the messages emitted. *)
Record Net : Type := {
  inbox : list (list byte);        (* inbound messages not opened yet *)
  reading : option (Reader * list byte);
                                   (* the open inbound message: its
                                      reader and the bytes not read yet *)
  writing : option (Writer * MessageType * list byte);
                                   (* the open outbound message: its
                                      writer, kind and bytes so far *)
  sent : list (MessageType * list byte);
                                   (* the messages emitted, oldest first *)
  fresh : nat;                     (* the next unused handle *)
  closed : bool;                   (* [Close] was called on it *)
  script : list fate               (* the fates of the calls to come *)
}.

(** An open connection that will deliver [msgs]. *)
Definition connect (msgs : list (list byte)) (sc : list fate) : Net :=
  {| inbox := msgs; reading := None; writing := None; sent := [];
     fresh := 0; closed := false; script := sc |}.

Definition errNoMessage : error := ErrOther 1.   (* the peer sends no more *)
Definition errClosedConn : error := ErrOther 2.  (* use of a closed connection *)
Definition errWriteClosed : error := ErrOther 3. (* use of a closed writer *)
Definition errShort : error := ErrOther 4.       (* an empty buffer *)

(** The fate of the call being made; an exhausted script lets every call
    through. *)
Definition pop (net : Net) : fate * Net :=
  match script net with
  | [] => (Whole, net)
  | f :: sc =>
    (f, {| inbox := inbox net; reading := reading net;
           writing := writing net; sent := sent net; fresh := fresh net;
           closed := closed net; script := sc |})
  end.

Definition fault (f : fate) : option error :=
  match f with
  | Broken _ code => Some (ErrOther code)
  | _ => None
  end.

(** How many of [avail] bytes a call of fate [f] moves. *)
Definition quota (f : fate) (avail : nat) : nat :=
  match f with
  | Whole => avail
  | Part k => Nat.min (S k) avail
  | Broken k _ => Nat.min k avail
  end.

Definition next_reader (net : Net) : Net * res Reader :=
  let '(f, net) := pop net in
  match fault f with
  | Some e => (net, Fail e)
  | None =>
    if closed net then (net, Fail errClosedConn)
    else
      match inbox net with
      | [] => (net, Fail errNoMessage)
      | m :: ms =>
        ({| inbox := ms; reading := Some (fresh net, m);
            writing := writing net; sent := sent net;
            fresh := S (fresh net); closed := closed net;
            script := script net |}, Ok (fresh net))
      end
  end.

(** A new writer; an outbound message still open is emitted first. *)
Definition next_writer (t : MessageType) (net : Net) : Net * res Writer :=
  let '(f, net) := pop net in
  match fault f with
  | Some e => (net, Fail e)
  | None =>
    if closed net then (net, Fail errClosedConn)
    else
      ({| inbox := inbox net; reading := reading net;
          writing := Some (fresh net, t, []);
          sent := match writing net with
                  | Some (_, t0, buf) => sent net ++ [(t0, buf)]
                  | None => sent net
                  end;
          fresh := S (fresh net); closed := closed net;
          script := script net |}, Ok (fresh net))
  end.

Definition mk_read (chunk : list byte) (err : option error) : read_result :=
  match chunk with
  | b :: bs => ReadSome b bs err
  | [] => ReadNone (match err with Some e => e | None => errShort end)
  end.

(** [rd.Read] into a buffer of [space] bytes.  A reader that is not the
    one of the open message has nothing left. *)
Definition reader_read (rd : Reader) (space : nat) (net : Net)
  : Net * read_result :=
  let '(f, net) := pop net in
  match reading net with
  | Some (rd', rest) =>
    if Nat.eqb rd' rd then
      let k := quota f space in
      let err := match fault f, rest with
                 | Some e, _ => Some e
                 | None, [] => Some EOF
                 | None, _ :: _ => None
                 end in
      ({| inbox := inbox net; reading := Some (rd, skipn k rest);
          writing := writing net; sent := sent net; fresh := fresh net;
          closed := closed net; script := script net |},
       mk_read (firstn k rest) err)
    else (net, ReadNone EOF)
  | None => (net, ReadNone EOF)
  end.

Definition mk_write (m : nat) (err : option error) : write_result :=
  match m with
  | S m' => WriteSome m' err
  | 0 => WriteNone (match err with Some e => e | None => errShort end)
  end.

(** [wr.Write(data)]: the bytes taken are appended to the open message. *)
Definition writer_write (wr : Writer) (data : list byte) (net : Net)
  : Net * write_result :=
  let '(f, net) := pop net in
  match writing net with
  | Some (wr', t, buf) =>
    if Nat.eqb wr' wr then
      let k := quota f (length data) in
      ({| inbox := inbox net; reading := reading net;
          writing := Some (wr, t, buf ++ firstn k data);
          sent := sent net; fresh := fresh net; closed := closed net;
          script := script net |},
       mk_write k (fault f))
    else (net, WriteNone errWriteClosed)
  | None => (net, WriteNone errWriteClosed)
  end.

(** [wr.Close()]: the open message is emitted, unless the call fails. *)
Definition writer_close (wr : Writer) (net : Net) : Net * option error :=
  let '(f, net) := pop net in
  match writing net with
  | Some (wr', t, buf) =>
    if Nat.eqb wr' wr then
      ({| inbox := inbox net; reading := reading net; writing := None;
          sent := match fault f with
                  | Some _ => sent net
                  | None => sent net ++ [(t, buf)]
                  end;
          fresh := fresh net; closed := closed net;
          script := script net |}, fault f)
    else (net, Some errWriteClosed)
  | None => (net, Some errWriteClosed)
  end.

Definition conn_close (net : Net) : Net * option error :=
  let '(f, net) := pop net in
  ({| inbox := inbox net; reading := reading net; writing := writing net;
      sent := sent net; fresh := fresh net; closed := true;
      script := script net |}, fault f).

(** Modelled from the spec: the three operations the connection offers
    in section 6 (the next inbound message as a byte source with an
    end-of-message signal, a new outbound message as a byte sink emitted
    when it is finalized, the closing of the connection), with the reads
    and writes on the sources and sinks they return.  The script of the
    state decides, call by call, how much of a buffer one [Read] or
    [Write] moves and which calls fail. *)
Definition handle (X : Type) (c : call X) : Net -> Net * X :=
  match c in call X return Net -> Net * X with
  | NextReader _ => next_reader
  | NextWriter _ t => next_writer t
  | ReaderRead rd space => reader_read rd space
  | WriterWrite wr data => writer_write wr data
  | WriterClose wr => writer_close wr
  | ConnClose _ => conn_close
  end.

(** The bytes of the inbound stream not yet read. *)
Definition unread (net : Net) : list byte :=
  match reading net with
  | Some (_, rest) => rest
  | None => []
  end ++ concat (inbox net).

(** Reading into each buffer of [ps] in turn: the slices [p[:n]] the
    calls return, oldest first, and the state left. *)
Fixpoint reads (ps : list (list byte)) (rwc : ReadWriteCloser) (net : Net)
  : list (list byte) * ReadWriteCloser * Net :=
  match ps with
  | [] => ([], rwc, net)
  | p :: ps' =>
    let o := run handle (Read p) rwc net in
    let '(n, _, p') := result o in
    let '(outs, rwc', net') := reads ps' (fields o) (world o) in
    (firstn n p' :: outs, rwc', net')
  end.

End Sim.

(** The bytes of a string literal, for the scenarios. *)
Module Text.
Import Strings.String.
Definition bytes (s : string) : list byte := list_byte_of_string s.
Arguments bytes s%_string.
End Text.
Import Text.


(** ** Vocabulary of the properties *)

(** The adapter is closed: it has no connection. *)
Definition is_closed (rwc : ReadWriteCloser) : Prop := ws rwc = None.

(** What [Close] leaves in the fields. *)
Definition all_clear : ReadWriteCloser :=
  {| ws := None; r := None; w := None |}.

(** No connection, no reader and no writer. *)
Definition linked (rwc : ReadWriteCloser) : Prop :=
  ws rwc = None -> r rwc = None /\ w rwc = None.

(** Every critical section of a program keeps [I], whatever the calls
    answer. *)
Fixpoint respects (I : ReadWriteCloser -> Prop) {A : Type} (P : prog A)
  : Prop :=
  match P with
  | Ret _ => True
  | Lock sec k =>
    (forall rwc, I rwc -> I (fst (sec rwc))) /\ (forall x, respects I (k x))
  | Call _ k => forall x, respects I (k x)
  end.

(** The same of a call in progress. *)
Definition task_respects (I : ReadWriteCloser -> Prop) (t : task) : Prop :=
  match t with
  | Task P => respects I P
  end.

(** A [w.Write] that reported an error. *)
Definition event_write_failed (e : event) : bool :=
  match e with
  | Ev c x =>
    match c in call X return X -> bool with
    | WriterWrite _ _ => fun x =>
      match write_err x with Some _ => true | None => false end
    | _ => fun _ => false
    end x
  end.

(** The same of some call of a trace. *)
Definition write_failed (tr : list event) : bool :=
  existsb event_write_failed tr.

(** The calls of a trace that ask for the next inbound message. *)
Definition is_NextReader (e : event) : bool :=
  match e with
  | Ev (NextReader _) _ => true
  | _ => false
  end.

(** A fate that is not a failure. *)
Definition calm (f : Sim.fate) : bool :=
  match f with
  | Sim.Broken _ _ => false
  | _ => true
  end.

(** A buffer of three bytes. *)
Definition buf3 (a b c : byte) : list byte := [a; b; c].

(** The connection of the scenario: it delivers "AB", then "CDE". *)
Definition AB_CDE (sc : list Sim.fate) : Sim.Net :=
  Sim.connect [bytes "AB"; bytes "CDE"] sc.

(** The adapter and the connection agree on the message being read: the
    reader of the adapter is the one of the open message, and with no
    reader in the adapter nothing of an open message is left unread. *)
Definition feeds (rwc : ReadWriteCloser) (net : Sim.Net) : Prop :=
  match r rwc with
  | Some rd => exists rest, Sim.reading net = Some (rd, rest)
  | None =>
    match Sim.reading net with
    | Some (_, rest) => rest = []
    | None => True
    end
  end.

(** Programs that call the inbound side of the connection only. *)
Definition inbound_call {X : Type} (c : call X) : bool :=
  match c with
  | NextReader _ | ReaderRead _ _ => true
  | _ => false
  end.

Fixpoint inbound_only {A : Type} (P : prog A) : Prop :=
  match P with
  | Ret _ => True
  | Lock _ k => forall x, inbound_only (k x)
  | Call c k => inbound_call c = true /\ forall x, inbound_only (k x)
  end.

(** How far the reads are from the end of the stream: every byte unread
    and every message unopened counts twice, a reader in the adapter
    once. *)
Definition backlog (rwc : ReadWriteCloser) (net : Sim.Net) : nat :=
  2 * (length (Sim.unread net) + length (Sim.inbox net)) +
  match r rwc with Some _ => 1 | None => 0 end.

(** Writing each buffer of [ps] in turn: the state left. *)
Fixpoint writes (ps : list (list byte)) (rwc : ReadWriteCloser)
    (net : Sim.Net) : ReadWriteCloser * Sim.Net :=
  match ps with
  | [] => (rwc, net)
  | p :: ps' =>
    let o := run Sim.handle (Write p) rwc net in
    writes ps' (fields o) (world o)
  end.

(** An open adapter on an open connection that fails no call. *)
Definition ready (c : Conn) (rwc : ReadWriteCloser) (net : Sim.Net) : Prop :=
  ws rwc = Some c /\ feeds rwc net /\
  forallb calm (Sim.script net) = true /\ Sim.closed net = false.

(** The message the next [Read] reads from, with what is left of it, and
    the messages after it: the open message when the adapter holds its
    reader, or else the first message of the inbox. *)
Definition at_hand (rwc : ReadWriteCloser) (net : Sim.Net)
  : option (list byte * list (list byte)) :=
  match r rwc with
  | Some _ =>
    match Sim.reading net with
    | Some (_, rest) => Some (rest, Sim.inbox net)
    | None => None
    end
  | None =>
    match Sim.inbox net with
    | m :: ms => Some (m, ms)
    | [] => None
    end
  end.

(** One read on the stream of messages, as a function of the message at
    hand: a message with less left than the buffer holds is handed over
    whole with [io.EOF], and the next read is on the next message;
    otherwise the buffer is filled and the rest stays at hand.  With no
    message, the connection failed the call. *)
Definition deframe (p : list byte)
    (st : option (list byte * list (list byte)))
  : (nat * option error * list byte) *
    option (list byte * list (list byte)) :=
  match st with
  | None => ((0, Some Sim.errNoMessage, p), None)
  | Some (rest, ms) =>
    if length rest <? length p then
      ((length rest, Some EOF, blit p 0 rest),
       match ms with
       | m :: ms' => Some (m, ms')
       | [] => None
       end)
    else
      ((length p, None, blit p 0 (firstn (length p) rest)),
       Some (skipn (length p) rest, ms))
  end.

(** ** Vocabulary of the further properties *)

(** The calls on the outbound side of the connection. *)
Definition outbound_call {X : Type} (c : call X) : bool :=
  match c with
  | NextWriter _ _ | WriterWrite _ _ | WriterClose _ => true
  | _ => false
  end.

Definition event_inbound (e : event) : bool :=
  match e with
  | Ev c _ => inbound_call c
  end.

Definition event_outbound (e : event) : bool :=
  match e with
  | Ev c _ => outbound_call c
  end.

(** The calls of a trace that ask for a new outbound message. *)
Definition is_NextWriter (e : event) : bool :=
  match e with
  | Ev (NextWriter _ _) _ => true
  | _ => false
  end.

(** The calls of a trace that close the connection. *)
Definition is_ConnClose (e : event) : bool :=
  match e with
  | Ev (ConnClose _) _ => true
  | _ => false
  end.

(** The error a [r.Read] reported, nil for any other call. *)
Definition event_read_err (e : event) : option error :=
  match e with
  | Ev c x =>
    match c in call X return X -> option error with
    | ReaderRead _ _ => read_err
    | _ => fun _ => None
    end x
  end.

(** Programs that call the outbound side of the connection only. *)
Fixpoint outbound_only {A : Type} (P : prog A) : Prop :=
  match P with
  | Ret _ => True
  | Lock _ k => forall x, outbound_only (k x)
  | Call c k => outbound_call c = true /\ forall x, outbound_only (k x)
  end.

(** An environment that keeps the log of the calls it answered, oldest
    first, beside its state. *)
Definition logged {World : Type}
    (handle : forall X : Type, call X -> World -> World * X)
    (X : Type) (c : call X) (st : World * list event)
  : (World * list event) * X :=
  ((fst (handle X c (fst st)),
    snd st ++ [Ev c (snd (handle X c (fst st)))]),
   snd (handle X c (fst st))).

(** The connection still in the adapter counts for one closing to come. *)
Definition token (rwc : ReadWriteCloser) : nat :=
  match ws rwc with
  | Some _ => 1
  | None => 0
  end.

Definition is_conn_close {X : Type} (c : call X) : bool :=
  match c with
  | ConnClose _ => true
  | _ => false
  end.

(** A program that closes the connection at most [b] times, more only
    for what its critical sections take out of the adapter. *)
Fixpoint may_close (b : nat) {A : Type} (P : prog A) : Prop :=
  match P with
  | Ret _ => True
  | Lock sec k =>
    forall rwc, exists b',
      token (fst (sec rwc)) + b' <= token rwc + b /\
      may_close b' (k (snd (sec rwc)))
  | Call c k =>
    if is_conn_close c
    then 1 <= b /\ forall x, may_close (b - 1) (k x)
    else forall x, may_close b (k x)
  end.

(** A program that never closes the connection and whose sections leave
    it in the adapter. *)
Fixpoint steady {A : Type} (P : prog A) : Prop :=
  match P with
  | Ret _ => True
  | Lock sec k =>
    (forall rwc, token (fst (sec rwc)) = token rwc) /\
    forall x, steady (k x)
  | Call c k => is_conn_close c = false /\ forall x, steady (k x)
  end.

(** The same of a call in progress. *)
Definition task_may_close (b : nat) (t : task) : Prop :=
  match t with
  | Task P => may_close b P
  end.

(** The closings the calls in progress may still make, together. *)
Definition pool_closes (ts : list task) (n : nat) : Prop :=
  exists bs, Forall2 task_may_close bs ts /\ list_sum bs = n.

(** What is still in the adapter, what the calls in progress may still
    close and what the log holds make one closing at most. *)
Definition one_closing {World : Type} (cfg : config (World * list event))
  : Prop :=
  exists n,
    pool_closes (c_pool cfg) n /\
    token (c_fields cfg) + n +
    length (filter is_ConnClose (snd (c_world cfg))) <= 1.

(** Reading into each buffer of [ps] in turn: what the calls return. *)
Fixpoint read_results (ps : list (list byte)) (rwc : ReadWriteCloser)
    (net : Sim.Net) : list (nat * option error * list byte) :=
  match ps with
  | [] => []
  | p :: ps' =>
    let o := run Sim.handle (Read p) rwc net in
    result o :: read_results ps' (fields o) (world o)
  end.

(** [deframe] for each buffer of [ps] in turn. *)
Fixpoint deframes (ps : list (list byte))
    (st : option (list byte * list (list byte)))
  : list (nat * option error * list byte) :=
  match ps with
  | [] => []
  | p :: ps' => fst (deframe p st) :: deframes ps' (snd (deframe p st))
  end.

(** The messages of a connection not opened yet, as the state of
    [deframe]. *)
Definition upcoming (msgs : list (list byte))
  : option (list byte * list (list byte)) :=
  match msgs with
  | m :: ms => Some (m, ms)
  | [] => None
  end.

(** The adapter and the connection agree on the message being written:
    the writer of the adapter is the one of the open message, and with
    no writer in the adapter no message is open. *)
Definition drains (rwc : ReadWriteCloser) (net : Sim.Net) : Prop :=
  match w rwc with
  | Some wr => exists t buf, Sim.writing net = Some (wr, t, buf)
  | None => Sim.writing net = None
  end.

(** The bytes handed to the connection so far: those of the messages
    emitted, then those of the open message. *)
Definition outbound (net : Sim.Net) : list byte :=
  concat (map snd (Sim.sent net)) ++
  match Sim.writing net with
  | Some (_, _, buf) => buf
  | None => []
  end.

(** Writing each buffer of [ps] in turn: what the calls return, and the
    slices [p[:n]] they report as written. *)
Fixpoint write_results (ps : list (list byte)) (rwc : ReadWriteCloser)
    (net : Sim.Net) : list (nat * option error) :=
  match ps with
  | [] => []
  | p :: ps' =>
    let o := run Sim.handle (Write p) rwc net in
    result o :: write_results ps' (fields o) (world o)
  end.

Fixpoint written (ps : list (list byte)) (rwc : ReadWriteCloser)
    (net : Sim.Net) : list byte :=
  match ps with
  | [] => []
  | p :: ps' =>
    let o := run Sim.handle (Write p) rwc net in
    firstn (fst (result o)) p ++ written ps' (fields o) (world o)
  end.

(** The calls made on the writer [wr]: its [Write] and its [Close]. *)
Definition on_writer (wr : Writer) (e : event) : bool :=
  match e with
  | Ev (WriterWrite wr' _) _ => Nat.eqb wr' wr
  | Ev (WriterClose wr') _ => Nat.eqb wr' wr
  | _ => false
  end.

(** The bytes a [w.Write] call took: the first [m] of the slice it was
    given, [m] being the count it reported. *)
Definition event_taken (e : event) : list byte :=
  match e with
  | Ev c x =>
    match c in call X return X -> list byte with
    | WriterWrite _ data => fun x => firstn (write_count x) data
    | _ => fun _ => []
    end x
  end.

(** The bytes all [w.Write] calls of a trace took, in order. *)
Definition taken (tr : list event) : list byte :=
  flat_map event_taken tr.





(** Five bytes to read into. *)
Definition buf5 : list byte :=
  [Byte.x00; Byte.x00; Byte.x00; Byte.x00; Byte.x00].

(** * Properties *)

(** ** Sequential runs against any environment *)

Section Sequential.

Variable World : Type.
Variable handle : forall X : Type, call X -> World -> World * X.


Lemma run_bind : forall (A B : Type) (P : prog A) (f : A -> prog B) rwc net,
  run handle (bind P f) rwc net =
  let o1 := run handle P rwc net in
  let o2 := run handle (f (result o1)) (fields o1) (world o1) in
  {| result := result o2; fields := fields o2; world := world o2;
     trace := trace o1 ++ trace o2 |}.
Proof.
  induction P as [a | X sec k IH | X c k IH]; intros f rwc net; simpl.
  - destruct (run handle (f a) rwc net); reflexivity.
  - apply IH.
  - rewrite IH. reflexivity.
Qed.

(** *** The adapter once closed *)

Lemma Close_fields : forall rwc net, fields (run handle Close rwc net) = all_clear.
Proof.
  intros rwc net. unfold Close. simpl.
  destruct (w rwc) as [wr|]; simpl.
  - destruct (snd (handle (WriterClose wr) net)); simpl;
      [reflexivity | destruct (ws rwc); reflexivity].
  - destruct (ws rwc); reflexivity.
Qed.

Lemma Read_closed : forall p rwc net,
  is_closed rwc ->
  run handle (Read p) rwc net =
  {| result := (0, Some ErrClosedPipe, p); fields := rwc; world := net;
     trace := [] |}.
Proof.
  intros p rwc net H. unfold Read. simpl. rewrite H. reflexivity.
Qed.

Lemma Write_closed : forall p rwc net,
  is_closed rwc ->
  run handle (Write p) rwc net =
  {| result := (0, Some ErrClosedPipe); fields := rwc; world := net;
     trace := [] |}.
Proof.
  intros p rwc net H. unfold Write. simpl. rewrite H. reflexivity.
Qed.

Lemma Close_all_clear : forall net,
  run handle Close all_clear net =
  {| result := None; fields := all_clear; world := net; trace := [] |}.
Proof. reflexivity. Qed.

(** Between the closing and a later call, any calls may have been made:
    they find the adapter closed and leave it as it is. *)
Lemma run_op_all_clear : forall o net,
  run_op handle o all_clear net = (all_clear, net, []).
Proof. intros [p | p |] net; reflexivity. Qed.

Lemma run_ops_all_clear : forall os net,
  run_ops handle os all_clear net = (all_clear, net, []).
Proof.
  induction os as [| o os IH]; intros net; simpl.
  - reflexivity.
  - rewrite run_op_all_clear, IH. reflexivity.
Qed.

(** C6.  Once [Close] has returned, with an error or without, and whatever
    calls were made since, [Read] and [Write] return [io.ErrClosedPipe] at
    once: they make no call into the connection and change nothing. *)
Theorem closed_fails_fast : forall rwc net os p,
  let c := run handle Close rwc net in
  let '(rwc', net', _) := run_ops handle os (fields c) (world c) in
  run handle (Read p) rwc' net' =
    {| result := (0, Some ErrClosedPipe, p); fields := rwc'; world := net';
       trace := [] |} /\
  run handle (Write p) rwc' net' =
    {| result := (0, Some ErrClosedPipe); fields := rwc'; world := net';
       trace := [] |}.
Proof.
  intros rwc net os p. cbv zeta.
  rewrite Close_fields, run_ops_all_clear.
  split; [apply Read_closed | apply Write_closed]; reflexivity.
Qed.

(** C9.  After one [Close] has completed, and whatever calls were made
    since, a further [Close] finds no writer and no connection, makes no
    call (no [w.Close], no [ws.Close]) and returns nil. *)
Theorem Close_again : forall rwc net os,
  let c := run handle Close rwc net in
  let '(rwc', net', _) := run_ops handle os (fields c) (world c) in
  w rwc' = None /\ ws rwc' = None /\
  run handle Close rwc' net' =
    {| result := None; fields := rwc'; world := net'; trace := [] |}.
Proof.
  intros rwc net os. cbv zeta.
  rewrite Close_fields, run_ops_all_clear.
  repeat split.
Qed.

(** C7.  [Close] takes the writer and the connection out of the fields.
    A writer that was open is closed first; if that fails, its error is
    returned and the connection is not closed.  Otherwise a connection
    that was present is closed and the result of that is returned.  With
    neither, nothing is called and nil is returned. *)
Theorem Close_order : forall rwc net,
  let o := run handle Close rwc net in
  fields o = all_clear /\
  (forall wr e,
     w rwc = Some wr -> snd (handle (WriterClose wr) net) = Some e ->
     result o = Some e /\
     trace o = [Ev (WriterClose wr) (Some e)] /\
     world o = fst (handle (WriterClose wr) net)) /\
  (forall wr c,
     w rwc = Some wr -> snd (handle (WriterClose wr) net) = None ->
     ws rwc = Some c ->
     let net1 := fst (handle (WriterClose wr) net) in
     result o = snd (handle (ConnClose c) net1) /\
     trace o = [Ev (WriterClose wr) None;
                Ev (ConnClose c) (snd (handle (ConnClose c) net1))] /\
     world o = fst (handle (ConnClose c) net1)) /\
  (forall c,
     w rwc = None -> ws rwc = Some c ->
     result o = snd (handle (ConnClose c) net) /\
     trace o = [Ev (ConnClose c) (snd (handle (ConnClose c) net))] /\
     world o = fst (handle (ConnClose c) net)) /\
  (w rwc = None -> ws rwc = None ->
     result o = None /\ trace o = [] /\ world o = net).
Proof.
  intros rwc net o. split; [apply Close_fields |].
  subst o. unfold Close. simpl.
  repeat split; intros.
  all: repeat match goal with
              | H : w _ = _ |- _ => rewrite H; clear H
              | H : ws _ = _ |- _ => rewrite H; clear H
              end; simpl.
  all: try match goal with
           | H : snd (handle _ _) = _ |- _ => rewrite H
           end; simpl; try reflexivity.
Qed.

End Sequential.

(** ** What the critical sections keep *)

Lemma respects_bind : forall (I : ReadWriteCloser -> Prop) (A B : Type)
    (P : prog A) (f : A -> prog B),
  respects I P -> (forall a, respects I (f a)) -> respects I (bind P f).
Proof.
  induction P as [a | X sec k IH | X c k IH]; intros f HP Hf; simpl in *.
  - apply Hf.
  - destruct HP as [Hsec Hk]. split; [exact Hsec |].
    intros x. apply IH; [apply Hk | exact Hf].
  - intros x. apply IH; [apply HP | exact Hf].
Qed.

Section Kept.

(** A property of the fields that the five sections which write to them
    keep. *)
Variable I : ReadWriteCloser -> Prop.
Hypothesis Read_store_keeps : forall rd rwc, I rwc -> I (fst (Read_store rd rwc)).
Hypothesis Read_clear_keeps : forall rd rwc, I rwc -> I (fst (Read_clear rd rwc)).
Hypothesis Write_store_keeps : forall wr rwc, I rwc -> I (fst (Write_store wr rwc)).
Hypothesis Write_clear_keeps : forall wr rwc, I rwc -> I (fst (Write_clear wr rwc)).
Hypothesis Close_take_keeps : forall rwc, I rwc -> I (fst (Close_take rwc)).

Lemma Read_loop_respects : forall turns rd p n err,
  respects I (Read_loop turns rd p n err).
Proof.
  induction turns as [| turns IH]; intros rd p n err; simpl.
  - exact Logic.I.
  - destruct (n <? length p); simpl; [| exact Logic.I].
    intros x. destruct (read_err x) as [[| |code] |]; simpl.
    + split; [apply Read_clear_keeps | intros _; exact Logic.I].
    + exact Logic.I.
    + exact Logic.I.
    + apply IH.
Qed.

Lemma Read_respects : forall p, respects I (Read p).
Proof.
  intros p. unfold Read. simpl. split; [intros rwc H; exact H |].
  intros [[c |] [rd |]]; simpl; try exact Logic.I.
  - apply Read_loop_respects.
  - intros [rd | e]; simpl; [| exact Logic.I].
    split; [apply Read_store_keeps |].
    intros [|]; simpl; [apply Read_loop_respects | exact Logic.I].
Qed.

Lemma Write_loop_respects : forall turns wr p n,
  respects I (Write_loop turns wr p n).
Proof.
  induction turns as [| turns IH]; intros wr p n; simpl.
  - exact Logic.I.
  - destruct (n <? length p); simpl; [| exact Logic.I].
    intros x. destruct (write_err x); simpl; [exact Logic.I | apply IH].
Qed.

Lemma Write_body_respects : forall wr p err,
  respects I (Write_body wr p err).
Proof.
  intros wr p err. unfold Write_body.
  apply respects_bind; [apply Write_loop_respects |].
  intros n.
  destruct err, (n =? length p); simpl; try exact Logic.I;
    intros closeErr; (split; [apply Write_clear_keeps | intros _; exact Logic.I]).
Qed.

Lemma Write_respects : forall p, respects I (Write p).
Proof.
  intros p. unfold Write. simpl. split; [intros rwc H; exact H |].
  intros [[c |] [wr |]]; simpl; try exact Logic.I.
  - apply Write_body_respects.
  - intros [wr | e]; simpl; [| exact Logic.I].
    split; [apply Write_store_keeps |].
    intros [|]; simpl; [apply Write_body_respects | intros _; exact Logic.I].
Qed.

Lemma Close_respects : respects I Close.
Proof.
  unfold Close. simpl. split; [apply Close_take_keeps |].
  intros [[wr |] [c |]]; simpl; try exact Logic.I;
    try (intros x; exact Logic.I).
  - intros [e |]; simpl; [exact Logic.I | intros x; exact Logic.I].
  - intros [e |]; simpl; exact Logic.I.
Qed.

Lemma start_respects : forall o, task_respects I (start o).
Proof.
  intros [p | p |]; simpl.
  - apply Read_respects.
  - apply Write_respects.
  - apply Close_respects.
Qed.

Variable World : Type.
Variable handle : forall X : Type, call X -> World -> World * X.

(** One goroutine alone. *)
Lemma run_keeps : forall (A : Type) (P : prog A) rwc net,
  respects I P -> I rwc -> I (fields (run handle P rwc net)).
Proof.
  induction P as [a | X sec k IH | X c k IH]; intros rwc net HP Hrwc;
    simpl in *.
  - exact Hrwc.
  - destruct HP as [Hsec Hk]. apply IH; [apply Hk | apply Hsec, Hrwc].
  - apply IH; [apply HP | exact Hrwc].
Qed.

Lemma run_op_keeps : forall o rwc net,
  I rwc -> I (fst (fst (run_op handle o rwc net))).
Proof.
  intros [p | p |] rwc net H; unfold run_op; cbv zeta; cbn [fst];
    apply run_keeps; try exact H.
  - apply Read_respects.
  - apply Write_respects.
  - apply Close_respects.
Qed.

(** Any number of goroutines, interleaved in any way. *)
Lemma step_keeps : forall c1 c2,
  step handle c1 c2 ->
  I (c_fields c1) /\ Forall (task_respects I) (c_pool c1) ->
  I (c_fields c2) /\ Forall (task_respects I) (c_pool c2).
Proof.
  intros c1 c2 Hstep [Hf Hp].
  destruct Hstep as [rwc net ts o | rwc net ts1 ts2 A X sec k
                     | rwc net ts1 ts2 A X c k]; simpl in *.
  - split; [exact Hf |].
    apply Forall_app. split; [exact Hp |].
    constructor; [apply start_respects | constructor].
  - apply Forall_app in Hp. destruct Hp as [H1 H2].
    inversion H2 as [| t ts Ht Hts]; subst. simpl in Ht.
    destruct Ht as [Hsec Hk].
    split; [apply Hsec, Hf |].
    apply Forall_app. split; [exact H1 |].
    constructor; [apply Hk | exact Hts].
  - apply Forall_app in Hp. destruct Hp as [H1 H2].
    inversion H2 as [| t ts Ht Hts]; subst. simpl in Ht.
    split; [exact Hf |].
    apply Forall_app. split; [exact H1 |].
    constructor; [apply Ht | exact Hts].
Qed.

Lemma steps_keep : forall c1 c2,
  steps handle c1 c2 ->
  I (c_fields c1) /\ Forall (task_respects I) (c_pool c1) ->
  I (c_fields c2) /\ Forall (task_respects I) (c_pool c2).
Proof.
  intros c1 c2 Hsteps H. induction Hsteps as [c | c1 c2 c3 _ IH Hstep].
  - exact H.
  - apply (step_keeps Hstep). apply IH, H.
Qed.

End Kept.

(** The two properties kept. *)

Lemma Read_store_closed : forall rd rwc,
  ws rwc = None -> fst (Read_store rd rwc) = rwc.
Proof. intros rd rwc H. unfold Read_store. rewrite H. reflexivity. Qed.

Lemma Write_store_closed : forall wr rwc,
  ws rwc = None -> fst (Write_store wr rwc) = rwc.
Proof. intros wr rwc H. unfold Write_store. rewrite H. reflexivity. Qed.

Lemma linked_Read_store : forall rd rwc, linked rwc -> linked (fst (Read_store rd rwc)).
Proof.
  intros rd rwc H. unfold Read_store.
  destruct (ws rwc) as [c |] eqn:E; simpl; [| exact H].
  unfold linked. simpl. rewrite E. discriminate.
Qed.

Lemma linked_Read_clear : forall rd rwc, linked rwc -> linked (fst (Read_clear rd rwc)).
Proof.
  intros rd rwc H. unfold Read_clear. simpl.
  destruct (same_handle (r rwc) (Some rd)); [| exact H].
  unfold linked in *. simpl. intros Hws. split; [reflexivity | apply H, Hws].
Qed.

Lemma linked_Write_store : forall wr rwc, linked rwc -> linked (fst (Write_store wr rwc)).
Proof.
  intros wr rwc H. unfold Write_store.
  destruct (ws rwc) as [c |] eqn:E; simpl; [| exact H].
  unfold linked. simpl. rewrite E. discriminate.
Qed.

Lemma linked_Write_clear : forall wr rwc, linked rwc -> linked (fst (Write_clear wr rwc)).
Proof.
  intros wr rwc H. unfold Write_clear. simpl.
  destruct (same_handle (w rwc) (Some wr)); [| exact H].
  unfold linked in *. simpl. intros Hws. split; [apply H, Hws | reflexivity].
Qed.

Lemma linked_Close_take : forall rwc, linked rwc -> linked (fst (Close_take rwc)).
Proof. intros rwc _. unfold linked. simpl. intros _. split; reflexivity. Qed.

Lemma closed_Read_store : forall rd rwc, is_closed rwc -> is_closed (fst (Read_store rd rwc)).
Proof. intros rd rwc H. rewrite Read_store_closed; assumption. Qed.

Lemma closed_Read_clear : forall rd rwc, is_closed rwc -> is_closed (fst (Read_clear rd rwc)).
Proof.
  intros rd rwc H. unfold Read_clear. simpl.
  destruct (same_handle (r rwc) (Some rd)); exact H.
Qed.

Lemma closed_Write_store : forall wr rwc, is_closed rwc -> is_closed (fst (Write_store wr rwc)).
Proof. intros wr rwc H. rewrite Write_store_closed; assumption. Qed.

Lemma closed_Write_clear : forall wr rwc, is_closed rwc -> is_closed (fst (Write_clear wr rwc)).
Proof.
  intros wr rwc H. unfold Write_clear. simpl.
  destruct (same_handle (w rwc) (Some wr)); exact H.
Qed.

Lemma closed_Close_take : forall rwc, is_closed rwc -> is_closed (fst (Close_take rwc)).
Proof. intros rwc _. reflexivity. Qed.

(** Under any interleaving, a closed adapter stays closed: no goroutine
    puts a connection back. *)
Lemma closed_stays_closed : forall World handle (c1 c2 : config World),
  steps handle c1 c2 ->
  Forall (task_respects is_closed) (c_pool c1) ->
  is_closed (c_fields c1) -> is_closed (c_fields c2).
Proof.
  intros World handle c1 c2 Hsteps Hpool Hc.
  apply (steps_keep closed_Read_store closed_Read_clear closed_Write_store
           closed_Write_clear closed_Close_take Hsteps).
  split; assumption.
Qed.

(** C8.  A fresh adapter is [linked]: without a connection it has no reader
    and no writer.  [Read] and [Write] store nothing when they find the
    connection gone, and [Close] clears the three fields in one section.
    So every operation run alone keeps the adapter [linked], and so does
    every interleaving of any number of calls of the three operations. *)
Theorem linked_always : forall World (handle : forall X : Type, call X -> World -> World * X),
  (forall c, linked (NewReadWriteCloser c)) /\
  (forall rd rwc, ws rwc = None -> fst (Read_store rd rwc) = rwc) /\
  (forall wr rwc, ws rwc = None -> fst (Write_store wr rwc) = rwc) /\
  (forall rwc, fst (Close_take rwc) = all_clear) /\
  (forall o rwc net,
     linked rwc -> linked (fst (fst (run_op handle o rwc net)))) /\
  (forall c net cfg,
     steps handle (initial c net) cfg -> linked (c_fields cfg)).
Proof.
  intros World handle.
  split; [intros c _; split; reflexivity |].
  split; [exact Read_store_closed |].
  split; [exact Write_store_closed |].
  split; [reflexivity |].
  split.
  - intros o rwc net. apply run_op_keeps.
    + exact linked_Read_store.
    + exact linked_Read_clear.
    + exact linked_Write_store.
    + exact linked_Write_clear.
    + exact linked_Close_take.
  - intros c net cfg Hsteps.
    apply (steps_keep linked_Read_store linked_Read_clear linked_Write_store
             linked_Write_clear linked_Close_take Hsteps).
    split; simpl; [| constructor].
    intros _. split; reflexivity.
Qed.

(** ** The error of [w.Write] *)

Section WriteErrors.

Variable World : Type.
Variable handle : forall X : Type, call X -> World -> World * X.


(** The loop touches no field and closes nothing, and stops short of
    [len(p)] only on an error of the writer. *)
Lemma Write_loop_run : forall turns wr p n rwc net,
  let o := run handle (Write_loop turns wr p n) rwc net in
  fields o = rwc /\ existsb is_WriterClose (trace o) = false.
Proof.
  induction turns as [| turns IH]; intros wr p n rwc net; simpl.
  - split; reflexivity.
  - destruct (n <? length p); simpl; [| split; reflexivity].
    destruct (write_err (snd (handle (WriterWrite wr (skipn n p)) net)));
      simpl; [split; reflexivity |].
    apply IH.
Qed.

Lemma Write_body_short : forall wr p rwc net,
  let o := run handle (Write_body wr p None) rwc net in
  fst (result o) < length p ->
  snd (result o) = None /\
  existsb is_WriterClose (trace o) = false /\
  fields o = rwc.
Proof.
  intros wr p rwc net. unfold Write_body. rewrite run_bind. cbv zeta.
  destruct (Write_loop_run (length p) wr p 0 rwc net) as [Hf Htr].
  set (o1 := run handle (Write_loop (length p) wr p 0) rwc net) in *.
  destruct (result o1 =? length p) eqn:E; simpl.
  - apply Nat.eqb_eq in E. intros H. lia.
  - intros _. rewrite app_nil_r. repeat split; assumption.
Qed.

(** C1, as the code has it.  When a [w.Write] fails before the whole
    buffer is written, [Write] returns the count with a nil error, does
    not close the writer and leaves it in the adapter: the error of line
    104 is declared in the body of the loop and is gone at line 110. *)
Theorem Write_loses_write_error : forall p rwc net,
  let o := run handle (Write p) rwc net in
  write_failed (trace o) = true ->
  fst (result o) < length p ->
  snd (result o) = None /\
  existsb is_WriterClose (trace o) = false /\
  w (fields o) <> None.
Proof.
  intros p rwc net. unfold Write. cbn [run Write_snapshot fst snd].
  destruct (ws rwc) as [c |] eqn:Ews; [| simpl; discriminate].
  destruct (w rwc) as [wr |] eqn:Ew.
  - cbv zeta. intros _ Hn.
    destruct (Write_body_short wr p rwc net Hn) as (H1 & H2 & H3).
    repeat split; try assumption.
    rewrite H3, Ew. discriminate.
  - cbn [run result fields trace].
    destruct (snd (handle (NextWriter c TextMessage) net)) as [wr | e];
      [| simpl; discriminate].
    cbn [run]. unfold Write_store. rewrite Ews. cbn [fst snd].
    intros _ Hn.
    destruct (Write_body_short wr p _ _ Hn) as (H1 & H2 & H3).
    repeat split.
    + exact H1.
    + cbn [existsb is_WriterClose orb]. exact H2.
    + rewrite H3. simpl. discriminate.
Qed.

End WriteErrors.

(** "hello" to a writer that takes two bytes and fails. *)
Lemma Write_loses_write_error_witness :
  let o := run Sim.handle (Write (bytes "hello"))
             (NewReadWriteCloser (Some 0))
             (Sim.connect [] [Sim.Whole; Sim.Broken 2 7]) in
  (write_failed (trace o) = true /\ fst (result o) < length (bytes "hello")) /\
  result o = (2, None) /\
  existsb is_WriterClose (trace o) = false /\
  w (fields o) <> None.
Proof.
  assert (H1 : write_failed
                 (trace (run Sim.handle (Write (bytes "hello"))
                           (NewReadWriteCloser (Some 0))
                           (Sim.connect [] [Sim.Whole; Sim.Broken 2 7]))) =
               true) by reflexivity.
  assert (H2 : fst (result (run Sim.handle (Write (bytes "hello"))
                              (NewReadWriteCloser (Some 0))
                              (Sim.connect [] [Sim.Whole; Sim.Broken 2 7]))) <
               length (bytes "hello")) by (vm_compute; lia).
  split; [split; [exact H1 | exact H2] |].
  split; [reflexivity |].
  apply (@Write_loses_write_error Sim.Net Sim.handle (bytes "hello")
           (NewReadWriteCloser (Some 0))
           (Sim.connect [] [Sim.Whole; Sim.Broken 2 7]) H1 H2).
Defined.

(** ** The end of a message *)

Lemma length_blit : forall p n d, length (blit p n d) = length p.
Proof.
  intros p n d. unfold blit.
  rewrite !length_app, !length_firstn, length_skipn. lia.
Qed.

Lemma blit_nil : forall p n, blit p n [] = p.
Proof.
  intros p n. unfold blit. rewrite firstn_nil. simpl.
  rewrite Nat.add_0_r. apply firstn_skipn.
Qed.

(** Two stores one after the other are one store of both. *)
Lemma blit_blit : forall p n d1 d2,
  blit (blit p n d1) (n + length d1) d2 = blit p n (d1 ++ d2).
Proof.
  intros p n d1 d2.
  destruct (le_lt_dec (n + length d1) (length p)) as [Hfit | Hover].
  - assert (Hq : blit p n d1 =
                 (firstn n p ++ d1) ++ skipn (n + length d1) p).
    { unfold blit. rewrite (firstn_all2 d1) by lia.
      rewrite <- app_assoc. reflexivity. }
    assert (Hl : length (firstn n p ++ d1) = n + length d1)
      by (rewrite length_app, length_firstn; lia).
    unfold blit at 1. rewrite length_blit. rewrite Hq.
    rewrite firstn_app, Hl, Nat.sub_diag, firstn_O, app_nil_r.
    rewrite (firstn_all2 (firstn n p ++ d1)) by lia.
    rewrite skipn_app, Hl.
    rewrite (skipn_all2 (firstn n p ++ d1)) by lia.
    replace (n + length d1 + length d2 - (n + length d1)) with (length d2)
      by lia.
    rewrite skipn_skipn. simpl.
    unfold blit. rewrite length_app, firstn_app.
    rewrite (firstn_all2 d1) by lia.
    rewrite <- !app_assoc.
    replace (length p - n - length d1) with (length p - (n + length d1))
      by lia.
    replace (length d2 + (n + length d1)) with (n + (length d1 + length d2))
      by lia.
    reflexivity.
  - unfold blit at 1. rewrite length_blit.
    rewrite firstn_all2 by (rewrite length_blit; lia).
    replace (length p - (n + length d1)) with 0 by lia.
    rewrite firstn_O.
    rewrite skipn_all2 by (rewrite length_blit; lia).
    rewrite app_nil_r. unfold blit.
    rewrite (skipn_all2 p (n := n + length d1)) by lia.
    rewrite (skipn_all2 p (n := n + length (d1 ++ d2)))
      by (rewrite length_app; lia).
    rewrite firstn_app.
    replace (length p - n - length d1) with 0 by lia.
    rewrite firstn_O, !app_nil_r. reflexivity.
Qed.

Lemma same_handle_refl : forall x, same_handle (Some x) (Some x) = true.
Proof. intros x. simpl. apply Nat.eqb_refl. Qed.

Lemma delivered_cons : forall e tr,
  delivered (e :: tr) = event_data e ++ delivered tr.
Proof. reflexivity. Qed.

Lemma end_of_message_cons : forall e tr,
  end_of_message (e :: tr) = event_eof e || end_of_message tr.
Proof. reflexivity. Qed.

Section ReadEnd.

Variable World : Type.
Variable handle : forall X : Type, call X -> World -> World * X.

(** What the loop of [Read] returns and leaves, in terms of what the
    reader answered. *)
Lemma Read_loop_run : forall turns rd p n err rwc net,
  let o := run handle (Read_loop turns rd p n err) rwc net in
  fst (fst (result o)) = n + length (delivered (trace o)) /\
  snd (result o) = blit p n (delivered (trace o)) /\
  (end_of_message (trace o) = true -> snd (fst (result o)) = Some EOF) /\
  fields o =
    if end_of_message (trace o) && same_handle (r rwc) (Some rd)
    then set_r None rwc else rwc.
Proof.
  induction turns as [| turns IH]; intros rd p n err rwc net.
  - simpl. rewrite blit_nil, Nat.add_0_r.
    repeat split; try reflexivity. discriminate.
  - cbn [Read_loop]. destruct (n <? length p).
    2:{ simpl. rewrite blit_nil, Nat.add_0_r.
        repeat split; try reflexivity. discriminate. }
    cbn [run]. cbv zeta.
    set (net1 := fst (handle (ReaderRead rd (length p - n)) net)).
    set (x := snd (handle (ReaderRead rd (length p - n)) net)).
    cbn [result fields trace].
    rewrite delivered_cons, end_of_message_cons.
    cbn [event_data event_eof].
    destruct (read_err x) as [[| | code] |] eqn:Ex.
    + cbn [run result fields trace fst snd Read_clear is_EOF orb andb].
      rewrite app_nil_r.
      repeat split; reflexivity.
    + cbn [run result fields trace fst snd is_EOF orb andb].
      rewrite app_nil_r.
      repeat split; try reflexivity. discriminate.
    + cbn [run result fields trace fst snd is_EOF orb andb].
      rewrite app_nil_r.
      repeat split; try reflexivity. discriminate.
    + cbn [is_EOF orb].
      destruct (IH rd (blit p n (read_data x)) (n + length (read_data x))
                  None rwc net1) as (H1 & H2 & H3 & H4).
      repeat split.
      * rewrite H1, length_app. lia.
      * rewrite H2. apply blit_blit.
      * exact H3.
      * exact H4.
Qed.

(** C2.  When the message being read reaches its end, [Read] clears the
    reader of the adapter and returns the bytes read so far together with
    [io.EOF]: the end of the message is the error result of the call.  The
    loop clears the reader only if the field still holds the reader it
    used, and leaves the other fields alone. *)
Theorem Read_end_of_message : forall p rwc net,
  let o := run handle (Read p) rwc net in
  end_of_message (trace o) = true ->
  result o = (length (delivered (trace o)), Some EOF,
              blit p 0 (delivered (trace o))) /\
  fields o = set_r None rwc /\
  (forall turns rd q n err rwc1 net1,
     let o1 := run handle (Read_loop turns rd q n err) rwc1 net1 in
     end_of_message (trace o1) = true ->
     fields o1 =
       if same_handle (r rwc1) (Some rd) then set_r None rwc1 else rwc1).
Proof.
  intros p rwc net o Heom.
  assert (Hloop : forall rd rwc1 net1,
            r rwc1 = Some rd ->
            let o1 := run handle (Read_loop (length p) rd p 0 None) rwc1 net1 in
            end_of_message (trace o1) = true ->
            result o1 = (length (delivered (trace o1)), Some EOF,
                         blit p 0 (delivered (trace o1))) /\
            fields o1 = set_r None rwc1).
  { intros rd rwc1 net1 Hr o1 He.
    destruct (Read_loop_run (length p) rd p 0 None rwc1 net1)
      as (H1 & H2 & H3 & H4).
    fold o1 in H1, H2, H3, H4.
    rewrite He, Hr, same_handle_refl in H4.
    specialize (H3 He). split; [| exact H4].
    destruct (result o1) as [[n' err'] p']. simpl in H1, H2, H3.
    rewrite H1, H2, H3. reflexivity. }
  split; [| split].
  - subst o. revert Heom. unfold Read. cbn [run Read_snapshot fst snd].
    destruct (ws rwc) as [c |] eqn:Ews; [| simpl; discriminate].
    destruct (r rwc) as [rd |] eqn:Er.
    + intros Heom. apply (Hloop rd rwc net Er Heom).
    + cbn [run result fields trace].
      destruct (snd (handle (NextReader c) net)) as [rd | e];
        [| simpl; discriminate].
      cbn [run]. unfold Read_store. rewrite Ews. cbn [fst snd].
      rewrite end_of_message_cons, delivered_cons.
      cbn [event_eof event_data orb app].
      intros Heom. eapply Hloop; [reflexivity | exact Heom].
  - subst o. revert Heom. unfold Read. cbn [run Read_snapshot fst snd].
    destruct (ws rwc) as [c |] eqn:Ews; [| simpl; discriminate].
    destruct (r rwc) as [rd |] eqn:Er.
    + intros Heom. apply (Hloop rd rwc net Er Heom).
    + cbn [run result fields trace].
      destruct (snd (handle (NextReader c) net)) as [rd | e];
        [| simpl; discriminate].
      cbn [run]. unfold Read_store. rewrite Ews. cbn [fst snd].
      rewrite end_of_message_cons.
      cbn [event_eof orb].
      intros Heom.
      destruct (Hloop rd (set_r (Some rd) rwc)
                  (fst (handle (NextReader c) net)) eq_refl Heom) as [_ H].
      rewrite H. reflexivity.
  - intros turns rd q n err rwc1 net1 o1 He.
    destruct (Read_loop_run turns rd q n err rwc1 net1) as (_ & _ & _ & H4).
    fold o1 in H4. rewrite He in H4. exact H4.
Qed.

End ReadEnd.

(** ** Scenarios on the simulated connection *)

(** C2, as stated: the end of the message would come with a nil error.
    Reading the one message "AB" into three bytes reaches its end and
    clears the reader, and the call returns 2 with an error that is not
    nil. *)
Lemma Read_end_of_message_not_nil :
  let o := run Sim.handle (Read (buf3 Byte.x00 Byte.x00 Byte.x00))
             (NewReadWriteCloser (Some 0)) (Sim.connect [bytes "AB"] []) in
  end_of_message (trace o) = true /\
  r (fields o) = None /\
  fst (fst (result o)) = 2 /\
  snd (fst (result o)) <> None.
Proof. cbv zeta. repeat split. vm_compute. discriminate. Qed.

Lemma Read_end_of_message_witness :
  let o := run Sim.handle (Read (buf3 Byte.x00 Byte.x00 Byte.x00))
             (NewReadWriteCloser (Some 0)) (Sim.connect [bytes "AB"] []) in
  end_of_message (trace o) = true /\
  result o = (2, Some EOF, bytes "AB" ++ [Byte.x00]).
Proof.
  split; [reflexivity |].
  apply (@Read_end_of_message Sim.Net Sim.handle
           (buf3 Byte.x00 Byte.x00 Byte.x00) (NewReadWriteCloser (Some 0))
           (Sim.connect [bytes "AB"] []) eq_refl).
Defined.

(** A writer that reports a byte taken together with its error, as
    the interface [io.Writer] allows and the writers of the connection
    do not.  A first [Write] of "ab" on such a writer returns (1, nil)
    and leaves it open; the next [Write], of "cd", is written in full
    and closes that writer: the one message emitted is "acd". *)
Example Write_joins_two_calls :
  let o1 := run Sim.handle (Write (bytes "ab")) (NewReadWriteCloser (Some 0))
              (Sim.connect [] [Sim.Whole; Sim.Broken 1 7]) in
  let o2 := run Sim.handle (Write (bytes "cd")) (fields o1) (world o1) in
  result o1 = (1, None) /\ w (fields o1) = Some 0 /\
  Sim.sent (world o1) = [] /\
  result o2 = (2, None) /\ w (fields o2) = None /\
  Sim.sent (world o2) = [(TextMessage, bytes "acd")].
Proof. cbv zeta. repeat split. Qed.

(** C10.  [Write] of an empty buffer on an open adapter with no writer
    open, the two calls it makes not failing: it obtains a text writer and
    closes it at once, which emits one empty text message; it leaves no
    writer in the adapter and returns (0, nil). *)
Theorem Write_empty : forall rwc net c,
  ws rwc = Some c -> w rwc = None ->
  Sim.writing net = None -> Sim.closed net = false ->
  forallb calm (firstn 2 (Sim.script net)) = true ->
  let o := run Sim.handle (Write []) rwc net in
  result o = (0, None) /\
  fields o = rwc /\
  trace o = [Ev (NextWriter c TextMessage) (Ok (Sim.fresh net));
             Ev (WriterClose (Sim.fresh net)) None] /\
  Sim.sent (world o) = Sim.sent net ++ [(TextMessage, [])] /\
  Sim.writing (world o) = None.
Proof.
  intros [ws0 r0 w0] [ib rdg wtg snt fr cl sc] c Hws Hw Hwtg Hcl Hsc.
  simpl in *. subst.
  destruct sc as [| f1 [| f2 sc]]; simpl in Hsc.
  - cbv. rewrite Nat.eqb_refl. repeat split.
  - destruct f1; try discriminate; cbv; rewrite Nat.eqb_refl; repeat split.
  - destruct f1; try discriminate; destruct f2; try discriminate;
      cbv; rewrite Nat.eqb_refl; repeat split.
Qed.

Lemma Write_empty_witness :
  let o := run Sim.handle (Write []) (NewReadWriteCloser (Some 0))
             (Sim.connect [] []) in
  result o = (0, None) /\
  Sim.sent (world o) = [(TextMessage, [])].
Proof.
  destruct (@Write_empty (NewReadWriteCloser (Some 0)) (Sim.connect [] []) 0
              eq_refl eq_refl eq_refl eq_refl eq_refl) as (H1 & _ & _ & H4 & _).
  split; [exact H1 | exact H4].
Defined.

(** ** Reading the inbound stream *)

Lemma firstn_blit : forall p n d,
  n + length d <= length p ->
  firstn (n + length d) (blit p n d) = firstn n p ++ d.
Proof.
  intros p n d H. unfold blit.
  rewrite (firstn_all2 d) by lia.
  rewrite app_assoc, firstn_app.
  assert (Hl : length (firstn n p ++ d) = n + length d)
    by (rewrite length_app, length_firstn; lia).
  rewrite Hl, Nat.sub_diag, firstn_O, app_nil_r.
  apply firstn_all2. lia.
Qed.

Lemma read_data_mk_read : forall chunk err,
  read_data (Sim.mk_read chunk err) = chunk.
Proof. intros [| b bs] err; reflexivity. Qed.

Lemma pop_reading : forall net,
  Sim.reading (snd (Sim.pop net)) = Sim.reading net /\
  Sim.inbox (snd (Sim.pop net)) = Sim.inbox net /\
  Sim.closed (snd (Sim.pop net)) = Sim.closed net.
Proof.
  intros net. unfold Sim.pop. destruct (Sim.script net); repeat split.
Qed.

Lemma quota_le : forall f avail, Sim.quota f avail <= avail.
Proof. intros [| k | k code] avail; unfold Sim.quota; lia. Qed.

(** One [Read] of the open message: it hands over a prefix of what is
    left, no longer than the buffer, and reports [io.EOF] only when
    nothing is left. *)
Lemma reader_read_open : forall rd space net rest,
  Sim.reading net = Some (rd, rest) ->
  let net' := fst (Sim.reader_read rd space net) in
  let x := snd (Sim.reader_read rd space net) in
  exists k,
    k <= space /\
    read_data x = firstn k rest /\
    Sim.reading net' = Some (rd, skipn k rest) /\
    Sim.inbox net' = Sim.inbox net /\
    (read_err x = Some EOF -> rest = []).
Proof.
  intros rd space net rest H. unfold Sim.reader_read.
  destruct (pop_reading net) as (Hr & Hi & _).
  destruct (Sim.pop net) as [f net0]. simpl in Hr, Hi.
  rewrite Hr, H, Nat.eqb_refl. cbn [fst snd Sim.reading Sim.inbox].
  exists (Sim.quota f space).
  split; [apply quota_le |].
  split; [apply read_data_mk_read |].
  split; [reflexivity |].
  split; [exact Hi |].
  destruct f as [| k | k code], rest as [| b rest];
    cbn [Sim.fault]; try reflexivity;
    destruct (firstn _ _); cbn; intros E; discriminate E.
Qed.

Lemma unread_reading : forall net rd rest,
  Sim.reading net = Some (rd, rest) ->
  Sim.unread net = rest ++ concat (Sim.inbox net).
Proof. intros net rd rest H. unfold Sim.unread. rewrite H. reflexivity. Qed.

(** The loop of [Read] on the open message: what it delivers is taken off
    the front of what was unread, fits the buffer, and leaves the adapter
    and the connection in agreement. *)
Lemma sim_Read_loop : forall turns rd p n err rwc net rest,
  Sim.reading net = Some (rd, rest) ->
  r rwc = Some rd ->
  n <= length p ->
  let o := run Sim.handle (Read_loop turns rd p n err) rwc net in
  delivered (trace o) ++ Sim.unread (world o) = Sim.unread net /\
  n + length (delivered (trace o)) <= length p /\
  feeds (fields o) (world o) /\
  ws (fields o) = ws rwc.
Proof.
  induction turns as [| turns IH]; intros rd p n err rwc net rest Hrd Hr Hn.
  - simpl. unfold feeds. rewrite Hr.
    repeat split; try lia. exists rest. exact Hrd.
  - cbn [Read_loop]. destruct (n <? length p) eqn:Elt.
    2:{ simpl. unfold feeds. rewrite Hr.
        repeat split; try lia. exists rest. exact Hrd. }
    apply Nat.ltb_lt in Elt.
    cbn [run Sim.handle]. cbv zeta.
    destruct (reader_read_open (length p - n) net Hrd)
      as (k & Hk & Hdata & Hrd' & Hib & Heof).
    set (net1 := fst (Sim.reader_read rd (length p - n) net)) in *.
    set (x := snd (Sim.reader_read rd (length p - n) net)) in *.
    cbn [result fields trace world].
    rewrite delivered_cons. cbn [event_data].
    assert (Hlen : length (read_data x) <= length p - n).
    { rewrite Hdata, length_firstn. lia. }
    assert (Hun : read_data x ++ Sim.unread net1 = Sim.unread net).
    { rewrite (unread_reading _ Hrd'), (unread_reading _ Hrd), Hib, Hdata.
      rewrite app_assoc, firstn_skipn. reflexivity. }
    destruct (read_err x) as [[| | code] |] eqn:Ex.
    + cbn [run result fields trace world fst snd Read_clear delivered flat_map].
      rewrite app_nil_r, Hr, same_handle_refl.
      repeat split; try assumption; try lia.
      unfold feeds. cbn [r set_r]. rewrite Hrd'.
      rewrite (Heof eq_refl). destruct k; reflexivity.
    + cbn [run result fields trace world delivered flat_map].
      rewrite app_nil_r.
      repeat split; try assumption; try lia.
      unfold feeds. rewrite Hr. eexists. exact Hrd'.
    + cbn [run result fields trace world delivered flat_map].
      rewrite app_nil_r.
      repeat split; try assumption; try lia.
      unfold feeds. rewrite Hr. eexists. exact Hrd'.
    + assert (Hn' : n + length (read_data x) <= length (blit p n (read_data x)))
        by (rewrite length_blit; lia).
      destruct (IH rd (blit p n (read_data x)) (n + length (read_data x))
                  None rwc net1 _ Hrd' Hr Hn') as (H1 & H2 & H3 & H4).
      rewrite length_blit in H2.
      repeat split.
      * rewrite <- app_assoc, H1. exact Hun.
      * rewrite length_app. lia.
      * exact H3.
      * exact H4.
Qed.

(** Asking for the next message: a failure leaves the stream as it is, a
    success opens the first message of the inbox. *)
Lemma next_reader_opens : forall net,
  let net' := fst (Sim.next_reader net) in
  match snd (Sim.next_reader net) with
  | Fail _ =>
    Sim.reading net' = Sim.reading net /\ Sim.inbox net' = Sim.inbox net
  | Ok rd =>
    exists m ms,
      Sim.inbox net = m :: ms /\ Sim.inbox net' = ms /\
      Sim.reading net' = Some (rd, m)
  end.
Proof.
  intros net. unfold Sim.next_reader.
  destruct (pop_reading net) as (Hr & Hi & _).
  destruct (Sim.pop net) as [f net0]. simpl in Hr, Hi.
  destruct (Sim.fault f); [simpl; split; assumption |].
  destruct (Sim.closed net0); [simpl; split; assumption |].
  rewrite Hi.
  destruct (Sim.inbox net) as [| m ms]; [simpl; split; assumption |].
  simpl. exists m, ms. repeat split.
Qed.

(** One [Read]: the slice it returns is taken off the front of what was
    unread. *)
Lemma sim_Read : forall p rwc net c,
  ws rwc = Some c ->
  feeds rwc net ->
  let o := run Sim.handle (Read p) rwc net in
  firstn (fst (fst (result o))) (snd (result o)) ++ Sim.unread (world o) =
    Sim.unread net /\
  feeds (fields o) (world o) /\
  ws (fields o) = Some c.
Proof.
  intros p rwc net c Hws Hfeeds.
  assert (Hloop : forall rd rwc1 net1 rest,
            Sim.reading net1 = Some (rd, rest) ->
            r rwc1 = Some rd ->
            let o1 := run Sim.handle (Read_loop (length p) rd p 0 None)
                        rwc1 net1 in
            firstn (fst (fst (result o1))) (snd (result o1)) ++
              Sim.unread (world o1) = Sim.unread net1 /\
            feeds (fields o1) (world o1) /\
            ws (fields o1) = ws rwc1).
  { intros rd rwc1 net1 rest Hrd Hr o1.
    destruct (@sim_Read_loop (length p) rd p 0 None rwc1 net1 rest Hrd Hr
                (Nat.le_0_l _)) as (H1 & H2 & H3 & H4).
    destruct (@Read_loop_run Sim.Net Sim.handle (length p) rd p 0 None
                rwc1 net1) as (G1 & G2 & _).
    fold o1 in H1, H2, H3, H4, G1, G2.
    rewrite G1, G2. rewrite firstn_blit by exact H2.
    repeat split; assumption. }
  unfold Read. cbn [run Read_snapshot fst snd]. rewrite Hws.
  unfold feeds in Hfeeds.
  destruct (r rwc) as [rd |] eqn:Er.
  - destruct Hfeeds as [rest Hrd].
    destruct (Hloop rd rwc net rest Hrd Er) as (H1 & H2 & H3).
    rewrite Hws in H3. repeat split; assumption.
  - cbn [run Sim.handle]. cbv zeta.
    pose proof (next_reader_opens net) as Hnext. cbv zeta in Hnext.
    set (net1 := fst (Sim.next_reader net)) in *.
    destruct (snd (Sim.next_reader net)) as [rd | e].
    + destruct Hnext as (m & ms & Hib & Hib' & Hrd).
      cbn [run]. unfold Read_store. rewrite Hws. cbn [fst snd].
      cbn [result fields trace world].
      destruct (Hloop rd (set_r (Some rd) rwc) net1 m Hrd eq_refl)
        as (H1 & H2 & H3).
      repeat split; try assumption.
      * rewrite H1, (unread_reading _ Hrd), Hib'.
        unfold Sim.unread. rewrite Hib.
        destruct (Sim.reading net) as [[rd0 rest0] |];
          [rewrite Hfeeds |]; reflexivity.
      * rewrite H3. exact Hws.
    + destruct Hnext as [Hrd Hib].
      cbn [run result fields trace world fst snd firstn app].
      repeat split; try assumption.
      * unfold Sim.unread. rewrite Hrd, Hib. reflexivity.
      * unfold feeds. rewrite Er, Hrd. exact Hfeeds.
Qed.

Lemma sim_reads : forall ps rwc net c,
  ws rwc = Some c ->
  feeds rwc net ->
  concat (fst (fst (Sim.reads ps rwc net))) ++
    Sim.unread (snd (Sim.reads ps rwc net)) = Sim.unread net.
Proof.
  induction ps as [| p ps IH]; intros rwc net c Hws Hfeeds.
  - reflexivity.
  - cbn [Sim.reads]. cbv zeta.
    destruct (@sim_Read p rwc net c Hws Hfeeds) as (H1 & H2 & H3).
    set (o := run Sim.handle (Read p) rwc net) in *.
    specialize (IH (fields o) (world o) c H3 H2).
    destruct (result o) as [[n err] p'].
    destruct (Sim.reads ps (fields o) (world o)) as [[outs rwc'] net'].
    cbn [fst snd concat] in *.
    rewrite <- app_assoc, IH. exact H1.
Qed.

(** *** Reading to the end of the stream *)

Lemma pop_calm : forall net,
  forallb calm (Sim.script net) = true ->
  calm (fst (Sim.pop net)) = true /\
  forallb calm (Sim.script (snd (Sim.pop net))) = true.
Proof.
  intros net H. unfold Sim.pop.
  destruct (Sim.script net) as [| f sc] eqn:E; simpl in *.
  - rewrite E. split; reflexivity.
  - apply andb_true_iff in H. exact H.
Qed.

Lemma pop_outbound : forall net,
  Sim.writing (snd (Sim.pop net)) = Sim.writing net /\
  Sim.sent (snd (Sim.pop net)) = Sim.sent net.
Proof.
  intros net. unfold Sim.pop. destruct (Sim.script net); split; reflexivity.
Qed.

(** The inbound calls keep a calm script calm, and touch neither the
    outbound side nor the closing of the connection. *)
Lemma inbound_call_frame : forall (X : Type) (c : call X) net,
  inbound_call c = true ->
  let net' := fst (Sim.handle c net) in
  (forallb calm (Sim.script net) = true ->
   forallb calm (Sim.script net') = true) /\
  Sim.closed net' = Sim.closed net /\
  Sim.writing net' = Sim.writing net /\
  Sim.sent net' = Sim.sent net.
Proof.
  intros X c net Hc.
  destruct (pop_reading net) as (_ & _ & Hcl).
  destruct (pop_outbound net) as (Hw & Hs).
  pose proof (pop_calm net) as Hcalm.
  destruct c; try discriminate Hc; cbn [Sim.handle];
    [unfold Sim.next_reader | unfold Sim.reader_read];
    destruct (Sim.pop net) as [f net0]; cbn [fst snd] in *;
    rewrite <- Hcl, <- Hw, <- Hs; clear Hcl Hw Hs.
  - destruct (Sim.fault f), (Sim.closed net0) eqn:Ecl, (Sim.inbox net0);
      cbn [fst Sim.script Sim.closed Sim.writing Sim.sent];
      (split; [intros H; apply Hcalm, H |]); repeat split; assumption.
  - destruct (Sim.reading net0) as [[rd' rest] |];
      [destruct (Nat.eqb rd' rd) |];
      cbn [fst Sim.script Sim.closed Sim.writing Sim.sent];
      (split; [intros H; apply Hcalm, H |]); repeat split.
Qed.

Lemma run_inbound_frame : forall (A : Type) (P : prog A) rwc net,
  inbound_only P ->
  let o := run Sim.handle P rwc net in
  (forallb calm (Sim.script net) = true ->
   forallb calm (Sim.script (world o)) = true) /\
  Sim.closed (world o) = Sim.closed net /\
  Sim.writing (world o) = Sim.writing net /\
  Sim.sent (world o) = Sim.sent net.
Proof.
  induction P as [a | X sec k IH | X c k IH]; intros rwc net HP.
  - simpl. repeat split. intros H; exact H.
  - simpl in *. apply IH, HP.
  - simpl in HP. destruct HP as [Hc Hk]. cbn [run]. cbv zeta.
    cbn [world].
    destruct (@inbound_call_frame X c net Hc) as (F1 & F2 & F3 & F4).
    destruct (IH (snd (Sim.handle c net)) rwc (fst (Sim.handle c net))
                (Hk _)) as (G1 & G2 & G3 & G4).
    repeat split.
    + intros H. apply G1, F1, H.
    + rewrite G2. exact F2.
    + rewrite G3. exact F3.
    + rewrite G4. exact F4.
Qed.

Lemma Read_loop_inbound : forall turns rd p n err,
  inbound_only (Read_loop turns rd p n err).
Proof.
  induction turns as [| turns IH]; intros rd p n err; simpl.
  - exact I.
  - destruct (n <? length p); simpl; [| exact I].
    split; [reflexivity |].
    intros x. destruct (read_err x) as [[| | code] |]; simpl;
      try exact I; [intros _; exact I | apply IH].
Qed.

Lemma Read_inbound : forall p, inbound_only (Read p).
Proof.
  intros p. unfold Read. simpl.
  intros [[c |] [rd |]]; simpl; try exact I.
  - apply Read_loop_inbound.
  - split; [reflexivity |].
    intros [rd | e]; simpl; [| exact I].
    intros [|]; simpl; [apply Read_loop_inbound | exact I].
Qed.

(** With a calm script, a read of the open message into a buffer with
    room hands over at least one byte, or reports the end of a message of
    which nothing is left. *)
Lemma reader_read_calm : forall rd space net rest,
  Sim.reading net = Some (rd, rest) ->
  forallb calm (Sim.script net) = true ->
  0 < space ->
  let x := snd (Sim.reader_read rd space net) in
  match rest with
  | [] => read_err x = Some EOF
  | _ :: _ => read_err x = None /\ read_data x <> []
  end.
Proof.
  intros rd space net rest H Hcalm Hspace. unfold Sim.reader_read.
  destruct (pop_reading net) as (Hr & _ & _).
  destruct (pop_calm net Hcalm) as [Hf _].
  destruct (Sim.pop net) as [f net0]. cbn [fst snd] in *.
  rewrite Hr, H, Nat.eqb_refl. cbn [snd].
  destruct space as [| space]; [lia |].
  destruct f as [| k | k code]; try discriminate Hf;
    destruct rest as [| b rest]; cbn; try reflexivity;
    split; try reflexivity; discriminate.
Qed.

Lemma next_reader_calm : forall net,
  forallb calm (Sim.script net) = true ->
  Sim.closed net = false ->
  Sim.inbox net <> [] ->
  exists rd, snd (Sim.next_reader net) = Ok rd.
Proof.
  intros net Hcalm Hcl Hib. unfold Sim.next_reader.
  destruct (pop_reading net) as (_ & Hi & Hc).
  destruct (pop_calm net Hcalm) as [Hf _].
  destruct (Sim.pop net) as [f net0]. cbn [fst snd] in *.
  rewrite Hc, Hcl, Hi.
  destruct f; try discriminate Hf; cbn [Sim.fault];
    destruct (Sim.inbox net); try contradiction; eexists; reflexivity.
Qed.

Lemma sim_Read_loop_inbox : forall turns rd p n err rwc net,
  Sim.inbox (world (run Sim.handle (Read_loop turns rd p n err) rwc net)) =
  Sim.inbox net.
Proof.
  induction turns as [| turns IH]; intros rd p n err rwc net.
  - reflexivity.
  - cbn [Read_loop]. destruct (n <? length p); [| reflexivity].
    cbn [run Sim.handle world].
    assert (Hib : Sim.inbox (fst (Sim.reader_read rd (length p - n) net)) =
                  Sim.inbox net).
    { unfold Sim.reader_read.
      destruct (pop_reading net) as (_ & Hi & _).
      destruct (Sim.pop net) as [f net0]. cbn [snd] in Hi.
      destruct (Sim.reading net0) as [[rd' rest] |];
        [destruct (Nat.eqb rd' rd) |]; exact Hi. }
    destruct (read_err (snd (Sim.reader_read rd (length p - n) net)))
      as [[| | code] |]; cbn [run world]; try exact Hib.
    rewrite IH. exact Hib.
Qed.

(** The loop never takes the reads further from the end of the stream. *)
Lemma sim_Read_loop_backlog : forall turns rd p n err rwc net rest,
  Sim.reading net = Some (rd, rest) ->
  r rwc = Some rd ->
  n <= length p ->
  let o := run Sim.handle (Read_loop turns rd p n err) rwc net in
  backlog (fields o) (world o) <= backlog rwc net.
Proof.
  intros turns rd p n err rwc net rest Hrd Hr Hn o.
  destruct (@sim_Read_loop turns rd p n err rwc net rest Hrd Hr Hn)
    as (H1 & _ & _ & _).
  fold o in H1. unfold backlog.
  rewrite <- H1, length_app. subst o. rewrite sim_Read_loop_inbox, Hr.
  destruct (r (fields _)); lia.
Qed.

(** With a calm script and a buffer with room, the loop on the reader of
    the adapter brings the reads nearer to the end of the stream. *)
Lemma sim_Read_loop_first : forall rd p rwc net rest,
  Sim.reading net = Some (rd, rest) ->
  r rwc = Some rd ->
  p <> [] ->
  forallb calm (Sim.script net) = true ->
  let o := run Sim.handle (Read_loop (length p) rd p 0 None) rwc net in
  backlog (fields o) (world o) < backlog rwc net.
Proof.
  intros rd p rwc net rest Hrd Hr Hp Hcalm.
  destruct p as [| b0 p0]; [contradiction |].
  set (p := b0 :: p0) in *.
  assert (Hspace : 0 < length p - 0) by (subst p; simpl; lia).
  change (length p) with (S (length p0)) at 1.
  cbn [Read_loop]. change (0 <? length p) with true. cbn iota.
  cbn [run Sim.handle]. cbv zeta.
  destruct (@reader_read_open rd (length p - 0) net rest Hrd)
    as (k & Hk & Hdata & Hrd' & Hib & _).
  pose proof (@reader_read_calm rd (length p - 0) net rest Hrd Hcalm Hspace)
    as Hstep. cbv zeta in Hstep.
  set (net1 := fst (Sim.reader_read rd (length p - 0) net)) in *.
  set (x := snd (Sim.reader_read rd (length p - 0) net)) in *.
  cbn [fields world].
  assert (Hun : length (read_data x) + length (Sim.unread net1) =
                length (Sim.unread net)).
  { rewrite (unread_reading _ Hrd'), (unread_reading _ Hrd), Hib, Hdata.
    rewrite <- length_app, app_assoc, firstn_skipn. reflexivity. }
  destruct rest as [| b rest].
  - rewrite Hstep.
    cbn [run fields world fst snd Read_clear].
    rewrite Hr, same_handle_refl. unfold backlog.
    cbn [r set_r]. rewrite Hr, Hib. lia.
  - destruct Hstep as [Herr Hne]. rewrite Herr.
    assert (Hn' : 0 + length (read_data x) <=
                  length (blit p 0 (read_data x))).
    { rewrite length_blit, Hdata, length_firstn. lia. }
    pose proof (@sim_Read_loop_backlog (length p0) rd
                  (blit p 0 (read_data x)) (0 + length (read_data x)) None
                  rwc net1 _ Hrd' Hr Hn') as Hle.
    cbv zeta in Hle.
    eapply Nat.le_lt_trans; [exact Hle |].
    unfold backlog. rewrite Hr, Hib.
    destruct (read_data x); [contradiction |]. simpl in Hun. lia.
Qed.

(** With a calm script and an open connection, a [Read] into a buffer
    with room brings the reads nearer to the end of the stream, unless
    they are there. *)
Lemma sim_Read_nearer : forall p rwc net c,
  ws rwc = Some c ->
  feeds rwc net ->
  p <> [] ->
  forallb calm (Sim.script net) = true ->
  Sim.closed net = false ->
  let o := run Sim.handle (Read p) rwc net in
  backlog (fields o) (world o) < backlog rwc net \/
  Sim.unread (world o) = [].
Proof.
  intros p rwc net c Hws Hfeeds Hp Hcalm Hcl.
  unfold Read. cbn [run Read_snapshot fst snd]. rewrite Hws.
  unfold feeds in Hfeeds.
  destruct (r rwc) as [rd |] eqn:Er.
  - destruct Hfeeds as [rest Hrd]. left.
    apply (@sim_Read_loop_first rd p rwc net rest Hrd Er Hp Hcalm).
  - cbn [run Sim.handle]. cbv zeta.
    pose proof (next_reader_opens net) as Hnext. cbv zeta in Hnext.
    destruct (@inbound_call_frame _ (NextReader c) net eq_refl)
      as (Hcalm1 & _).
    cbn [Sim.handle] in Hcalm1. specialize (Hcalm1 Hcalm).
    destruct (Sim.inbox net) as [| m0 ms0] eqn:Eib.
    + right.
      destruct (snd (Sim.next_reader net)) as [rd | e].
      * destruct Hnext as (m & ms & Hib & _). discriminate Hib.
      * destruct Hnext as [Hrd Hib].
        cbn [run world]. unfold Sim.unread. rewrite Hrd, Hib.
        destruct (Sim.reading net) as [[rd0 rest0] |];
          [rewrite Hfeeds |]; reflexivity.
    + left.
      assert (Hne : Sim.inbox net <> []) by (rewrite Eib; discriminate).
      destruct (next_reader_calm net Hcalm Hcl Hne) as [rd Hok].
      rewrite Hok in *.
      destruct Hnext as (m & ms & Hib & Hib' & Hrd).
      cbn [run]. unfold Read_store. rewrite Hws. cbn [fst snd].
      cbn [fields world].
      pose proof (@sim_Read_loop_first rd p (set_r (Some rd) rwc) _ m Hrd
                    eq_refl Hp Hcalm1) as Hlt.
      cbv zeta in Hlt.
      eapply Nat.lt_le_trans; [exact Hlt |].
      unfold backlog. cbn [r set_r]. rewrite Er.
      rewrite (unread_reading _ Hrd), Hib'.
      unfold Sim.unread. rewrite Eib.
      injection Hib as -> ->.
      destruct (Sim.reading net) as [[rd0 rest0] |];
        [rewrite Hfeeds |]; simpl; rewrite ?length_app; simpl; lia.
Qed.

(** Enough reads into buffers with room reach the end of the stream. *)
Lemma sim_reads_reach_the_end : forall ps rwc net c,
  ws rwc = Some c ->
  feeds rwc net ->
  Forall (fun p => p <> []) ps ->
  forallb calm (Sim.script net) = true ->
  Sim.closed net = false ->
  backlog rwc net <= length ps ->
  Sim.unread (snd (Sim.reads ps rwc net)) = [].
Proof.
  induction ps as [| p ps IH]; intros rwc net c Hws Hfeeds Hps Hcalm Hcl Hb.
  - simpl in *. unfold backlog in Hb.
    destruct (Sim.unread net); [reflexivity | simpl in Hb; lia].
  - inversion Hps as [| p' ps' Hp Hps']; subst.
    pose proof (@sim_Read_nearer p rwc net c Hws Hfeeds Hp Hcalm Hcl)
      as Hnear.
    destruct (@sim_Read p rwc net c Hws Hfeeds) as (_ & Hfeeds' & Hws').
    destruct (@run_inbound_frame _ (Read p) rwc net (Read_inbound p))
      as (Hcalm' & Hcl' & _).
    cbv zeta in Hnear, Hcalm', Hcl'.
    pose proof (@sim_reads ps _ _ c Hws' Hfeeds') as Hcons.
    specialize (IH _ _ c Hws' Hfeeds' Hps' (Hcalm' Hcalm)).
    cbn [Sim.reads]. cbv zeta.
    set (o := run Sim.handle (Read p) rwc net) in *.
    destruct (result o) as [[n err] q].
    destruct (Sim.reads ps (fields o) (world o)) as [[outs rwc'] net'].
    cbn [fst snd] in *.
    destruct Hnear as [Hlt | Hend].
    + apply IH; [rewrite Hcl'; exact Hcl | simpl in Hb; lia].
    + rewrite Hend in Hcons. apply app_eq_nil in Hcons. apply Hcons.
Qed.

(** ** Writing when no call fails *)

Lemma firstn_plus : forall (A : Type) (l : list A) n m,
  firstn (n + m) l = firstn n l ++ firstn m (skipn n l).
Proof.
  intros A l. induction l as [| a l IH]; intros n m.
  - rewrite skipn_nil, !firstn_nil. reflexivity.
  - destruct n as [| n]; simpl; [reflexivity |].
    rewrite IH. reflexivity.
Qed.

(** With a calm script, a [Write] to the open writer takes at least one
    byte of a buffer that is not empty and reports no error. *)
Lemma writer_write_calm : forall wr data net t buf,
  Sim.writing net = Some (wr, t, buf) ->
  forallb calm (Sim.script net) = true ->
  data <> [] ->
  let net' := fst (Sim.writer_write wr data net) in
  let x := snd (Sim.writer_write wr data net) in
  write_err x = None /\
  1 <= write_count x <= length data /\
  Sim.writing net' = Some (wr, t, buf ++ firstn (write_count x) data) /\
  Sim.sent net' = Sim.sent net /\
  Sim.closed net' = Sim.closed net /\
  forallb calm (Sim.script net') = true.
Proof.
  intros wr data net t buf Hw Hcalm Hdata. unfold Sim.writer_write.
  destruct (pop_outbound net) as (Hw0 & Hs0).
  destruct (pop_reading net) as (_ & _ & Hc0).
  destruct (pop_calm net Hcalm) as [Hf Hcalm0].
  destruct (Sim.pop net) as [f net0]. cbn [fst snd] in *.
  rewrite Hw0, Hw, Nat.eqb_refl.
  cbn [fst snd Sim.writing Sim.sent Sim.closed Sim.script].
  assert (Hq : 1 <= Sim.quota f (length data) <= length data).
  { destruct data as [| b data]; [contradiction |].
    destruct f; try discriminate Hf; unfold Sim.quota; simpl length; lia. }
  assert (Hfault : Sim.fault f = None)
    by (destruct f; try discriminate Hf; reflexivity).
  rewrite Hfault.
  destruct (Sim.quota f (length data)) as [| m] eqn:Eq; [lia |].
  cbn [Sim.mk_write write_err write_count].
  repeat split; try assumption; lia.
Qed.

(** The loop of [Write] with a calm script: the rest of the buffer goes
    into the open message. *)
Lemma sim_Write_loop : forall turns wr p n rwc net t buf,
  Sim.writing net = Some (wr, t, buf ++ firstn n p) ->
  forallb calm (Sim.script net) = true ->
  n <= length p ->
  length p - n <= turns ->
  let o := run Sim.handle (Write_loop turns wr p n) rwc net in
  result o = length p /\
  fields o = rwc /\
  Sim.writing (world o) = Some (wr, t, buf ++ p) /\
  Sim.sent (world o) = Sim.sent net /\
  Sim.closed (world o) = Sim.closed net /\
  forallb calm (Sim.script (world o)) = true.
Proof.
  induction turns as [| turns IH]; intros wr p n rwc net t buf Hw Hcalm Hn Ht.
  - assert (n = length p) by lia. subst n.
    rewrite firstn_all in Hw. simpl. repeat split; assumption.
  - cbn [Write_loop]. destruct (n <? length p) eqn:Elt.
    2:{ apply Nat.ltb_ge in Elt. assert (n = length p) by lia. subst n.
        rewrite firstn_all in Hw. simpl. repeat split; assumption. }
    apply Nat.ltb_lt in Elt.
    cbn [run Sim.handle]. cbv zeta. cbn [result fields world].
    assert (Hdata : skipn n p <> []).
    { intros E. apply (f_equal (@length byte)) in E.
      rewrite length_skipn in E. simpl in E. lia. }
    destruct (@writer_write_calm wr (skipn n p) net t _ Hw Hcalm Hdata)
      as (Herr & Hcount & Hw' & Hs' & Hc' & Hcalm').
    rewrite length_skipn in Hcount.
    set (net1 := fst (Sim.writer_write wr (skipn n p) net)) in *.
    set (x := snd (Sim.writer_write wr (skipn n p) net)) in *.
    rewrite Herr.
    rewrite <- app_assoc, <- firstn_plus in Hw'.
    destruct (IH wr p (n + write_count x) rwc net1 t buf Hw' Hcalm')
      as (H1 & H2 & H3 & H4 & H5 & H6); try lia.
    repeat split; try assumption.
    + rewrite H4. exact Hs'.
    + rewrite H5. exact Hc'.
Qed.

(** One [Write] with no writer open and a calm script: one text message
    with the bytes of the buffer is emitted, and no writer is left. *)
Lemma sim_Write : forall p rwc net c,
  ws rwc = Some c -> w rwc = None ->
  Sim.writing net = None -> Sim.closed net = false ->
  forallb calm (Sim.script net) = true ->
  let o := run Sim.handle (Write p) rwc net in
  result o = (length p, None) /\
  fields o = rwc /\
  Sim.sent (world o) = Sim.sent net ++ [(TextMessage, p)] /\
  Sim.writing (world o) = None /\
  Sim.closed (world o) = false /\
  forallb calm (Sim.script (world o)) = true.
Proof.
  intros p rwc net c Hws Hw Hwtg Hcl Hcalm.
  unfold Write. cbn [run Write_snapshot fst snd]. rewrite Hws, Hw.
  cbn [run Sim.handle]. cbv zeta.
  (* the new writer *)
  assert (Hnext : exists net1 wr,
            Sim.next_writer TextMessage net = (net1, Ok wr) /\
            Sim.writing net1 = Some (wr, TextMessage, []) /\
            Sim.sent net1 = Sim.sent net /\
            Sim.closed net1 = false /\
            forallb calm (Sim.script net1) = true).
  { unfold Sim.next_writer.
    destruct (pop_outbound net) as (Hw0 & Hs0).
    destruct (pop_reading net) as (_ & _ & Hc0).
    destruct (pop_calm net Hcalm) as [Hf Hcalm0].
    destruct (Sim.pop net) as [f net0]. cbn [fst snd] in *.
    assert (Hfault : Sim.fault f = None)
      by (destruct f; try discriminate Hf; reflexivity).
    rewrite Hfault, Hc0, Hcl, Hw0, Hwtg.
    eexists. eexists. split; [reflexivity |].
    cbn. repeat split; try assumption. }
  destruct Hnext as (net1 & wr & Hnw & Hw1 & Hs1 & Hc1 & Hcalm1).
  rewrite Hnw. cbn [fst snd run]. unfold Write_store. rewrite Hws.
  cbn [fst snd]. unfold Write_body. rewrite run_bind. cbv zeta.
  destruct (@sim_Write_loop (length p) wr p 0 (set_w (Some wr) rwc) net1
              TextMessage [] Hw1 Hcalm1 (Nat.le_0_l _))
    as (H1 & H2 & H3 & H4 & H5 & H6); [lia |].
  set (o1 := run Sim.handle (Write_loop (length p) wr p 0)
               (set_w (Some wr) rwc) net1) in *.
  rewrite H1, Nat.eqb_refl. cbn [run Sim.handle]. cbv zeta.
  (* the closing of the writer *)
  unfold Sim.writer_close.
  destruct (pop_outbound (world o1)) as (Hw0 & Hs0).
  destruct (pop_reading (world o1)) as (_ & _ & Hc0).
  destruct (pop_calm (world o1) H6) as [Hf Hcalm0].
  destruct (Sim.pop (world o1)) as [f net2]. cbn [fst snd] in *.
  assert (Hfault : Sim.fault f = None)
    by (destruct f; try discriminate Hf; reflexivity).
  rewrite Hw0, H3, Nat.eqb_refl, Hfault.
  cbn [fst snd result fields world Sim.sent Sim.writing Sim.closed
       Sim.script Write_clear app].
  rewrite H2. cbn [w set_w]. rewrite same_handle_refl.
  repeat split; try assumption.
  - destruct rwc as [ws0 r0 w0]. simpl in *. subst. reflexivity.
  - rewrite Hs0, H4, Hs1. reflexivity.
  - rewrite Hc0, H5. exact Hc1.
Qed.

(** Writes one after the other, none failed by the connection: one text
    message for each call, with the bytes of its buffer, in order. *)
Lemma sim_writes : forall ps rwc net c,
  ws rwc = Some c -> w rwc = None ->
  Sim.writing net = None -> Sim.closed net = false ->
  forallb calm (Sim.script net) = true ->
  Sim.sent (snd (writes ps rwc net)) =
  Sim.sent net ++ map (fun p => (TextMessage, p)) ps.
Proof.
  induction ps as [| p ps IH]; intros rwc net c Hws Hw Hwtg Hcl Hcalm.
  - simpl. rewrite app_nil_r. reflexivity.
  - cbn [writes map]. cbv zeta.
    destruct (@sim_Write p rwc net c Hws Hw Hwtg Hcl Hcalm)
      as (_ & H2 & H3 & H4 & H5 & H6).
    rewrite (IH _ _ c); try assumption; try (rewrite H2; assumption).
    rewrite H3, <- app_assoc. reflexivity.
Qed.

(** ** The loops run to their end *)

Section Turns.

Variable World : Type.
Variable handle : forall X : Type, call X -> World -> World * X.

(** [len(p) - n] turns are enough for the loop of [Read]: with more, it
    does the same. *)
Lemma Read_loop_turns : forall t1 t2 rd p n err rwc net,
  length p - n <= t1 -> length p - n <= t2 ->
  run handle (Read_loop t1 rd p n err) rwc net =
  run handle (Read_loop t2 rd p n err) rwc net.
Proof.
  induction t1 as [| t1 IH]; intros t2 rd p n err rwc net H1 H2.
  - destruct t2 as [| t2]; [reflexivity |].
    cbn [Read_loop].
    replace (n <? length p) with false
      by (symmetry; apply Nat.ltb_ge; lia).
    reflexivity.
  - destruct t2 as [| t2]; cbn [Read_loop].
    + replace (n <? length p) with false
        by (symmetry; apply Nat.ltb_ge; lia).
      reflexivity.
    + destruct (n <? length p) eqn:Elt; [| reflexivity].
      apply Nat.ltb_lt in Elt. cbn [run]. cbv zeta.
      destruct (snd (handle (ReaderRead rd (length p - n)) net))
        as [b bs [[| | code] |] | e]; cbn [read_err read_data];
        try reflexivity.
      rewrite (IH t2); [reflexivity | |];
        rewrite length_blit; simpl length; lia.
Qed.

(** And for the loop of [Write]. *)
Lemma Write_loop_turns : forall t1 t2 wr p n rwc net,
  length p - n <= t1 -> length p - n <= t2 ->
  run handle (Write_loop t1 wr p n) rwc net =
  run handle (Write_loop t2 wr p n) rwc net.
Proof.
  induction t1 as [| t1 IH]; intros t2 wr p n rwc net H1 H2.
  - destruct t2 as [| t2]; [reflexivity |].
    cbn [Write_loop].
    replace (n <? length p) with false
      by (symmetry; apply Nat.ltb_ge; lia).
    reflexivity.
  - destruct t2 as [| t2]; cbn [Write_loop].
    + replace (n <? length p) with false
        by (symmetry; apply Nat.ltb_ge; lia).
      reflexivity.
    + destruct (n <? length p) eqn:Elt; [| reflexivity].
      apply Nat.ltb_lt in Elt. cbn [run]. cbv zeta.
      destruct (snd (handle (WriterWrite wr (skipn n p)) net))
        as [m [e |] | e]; cbn [write_err write_count];
        try reflexivity.
      rewrite (IH t2); [reflexivity | |]; lia.
Qed.

End Turns.

(** ** A closing that overtakes a read *)

(** An interleaving in which the second look at the connection decides:
    a [Read] has taken its snapshot and obtained a reader when a [Close]
    clears the fields; the [Read] then finds the connection gone, stores
    nothing and returns [io.ErrClosedPipe]. *)
Lemma Read_overtaken_by_Close : forall p : list byte,
  exists ts,
    steps Sim.handle (initial (Some 0) (Sim.connect [bytes "AB"] []))
      {| c_fields := all_clear;
         c_world := fst (Sim.next_reader (Sim.connect [bytes "AB"] []));
         c_pool := Task (Ret (0, Some ErrClosedPipe, p)) :: ts |}.
Proof.
  intros p. eexists.
  eapply steps_next.
  eapply steps_next.
  eapply steps_next.
  eapply steps_next.
  eapply steps_next.
  eapply steps_next.
  - apply steps_refl.
  - apply (step_start Sim.handle _ _ [] (OpRead p)).
  - apply step_lock with (ts1 := []) (ts2 := []) (sec := Read_snapshot).
  - apply step_call with (ts1 := []) (ts2 := []) (c := NextReader 0).
  - apply step_start with (o := OpClose).
  - eapply step_lock with (ts1 := [_]) (ts2 := []) (sec := Close_take).
  - eapply step_lock with (ts1 := []) (ts2 := [_]) (sec := Read_store 0).
Qed.

(** ** One read of a message, however the connection cuts it *)

(** With a calm script the loop of [Read] fills the buffer from the open
    message, whatever the sizes of the pieces the reader hands over: when
    less is left than the buffer has room for, it takes all of it, clears
    the reader and returns [io.EOF]; otherwise it fills the buffer, keeps
    the reader and returns nil. *)
Lemma sim_Read_loop_calm : forall turns rd p n rwc net rest,
  Sim.reading net = Some (rd, rest) ->
  r rwc = Some rd ->
  n <= length p ->
  length p - n <= turns ->
  forallb calm (Sim.script net) = true ->
  let o := run Sim.handle (Read_loop turns rd p n None) rwc net in
  (length rest < length p - n ->
   result o = (n + length rest, Some EOF, blit p n rest) /\
   fields o = set_r None rwc /\
   Sim.reading (world o) = Some (rd, [])) /\
  (length p - n <= length rest ->
   result o = (length p, None, blit p n (firstn (length p - n) rest)) /\
   fields o = rwc /\
   Sim.reading (world o) = Some (rd, skipn (length p - n) rest)).
Proof.
  induction turns as [| turns IH]; intros rd p n rwc net rest Hrd Hr Hn Ht Hcalm.
  - assert (E : length p - n = 0) by lia.
    cbn [Read_loop run result fields world]. rewrite E.
    split; [intros H; lia | intros _].
    rewrite firstn_O, blit_nil, skipn_O.
    repeat split; try assumption. f_equal. f_equal. lia.
  - cbn [Read_loop]. destruct (n <? length p) eqn:Elt.
    2:{ apply Nat.ltb_ge in Elt. assert (E : length p - n = 0) by lia.
        cbn [run result fields world]. rewrite E.
        split; [intros H; lia | intros _].
        rewrite firstn_O, blit_nil, skipn_O.
        repeat split; try assumption. f_equal. f_equal. lia. }
    apply Nat.ltb_lt in Elt.
    assert (Hspace : 0 < length p - n) by lia.
    cbn [run Sim.handle]. cbv zeta.
    destruct (@reader_read_open rd (length p - n) net rest Hrd)
      as (k & Hk & Hdata & Hrd' & _ & _).
    pose proof (@reader_read_calm rd (length p - n) net rest Hrd Hcalm Hspace)
      as Hstep. cbv zeta in Hstep.
    destruct (@inbound_call_frame _ (ReaderRead rd (length p - n)) net eq_refl)
      as (Hcalm' & _).
    cbn [Sim.handle] in Hcalm'. specialize (Hcalm' Hcalm).
    set (net1 := fst (Sim.reader_read rd (length p - n) net)) in *.
    set (x := snd (Sim.reader_read rd (length p - n) net)) in *.
    cbn [result fields world].
    destruct rest as [| b rest].
    + rewrite Hstep.
      cbn [run result fields world fst snd Read_clear].
      rewrite Hr, same_handle_refl, Hdata, firstn_nil, Nat.add_0_r.
      rewrite skipn_nil in Hrd'.
      split; [intros _ | simpl; intros H; lia].
      repeat split. exact Hrd'.
    + destruct Hstep as [Herr Hne]. rewrite Herr.
      set (rest0 := b :: rest) in *.
      assert (Hd : length (read_data x) = Nat.min k (length rest0))
        by (rewrite Hdata; apply length_firstn).
      assert (Hn1 : n + length (read_data x) <=
                    length (blit p n (read_data x)))
        by (rewrite length_blit; lia).
      assert (Ht1 : length (blit p n (read_data x)) -
                    (n + length (read_data x)) <= turns).
      { rewrite length_blit.
        destruct (read_data x); [contradiction | simpl length; lia]. }
      destruct (IH rd (blit p n (read_data x)) (n + length (read_data x))
                  rwc net1 (skipn k rest0) Hrd' Hr Hn1 Ht1 Hcalm')
        as [IH1 IH2].
      rewrite length_blit, length_skipn in IH1, IH2.
      split.
      * intros Hlt.
        destruct IH1 as (R1 & R2 & R3); [lia |].
        split; [| split; assumption].
        rewrite R1, blit_blit, Hdata, firstn_skipn.
        f_equal. f_equal. rewrite length_firstn. lia.
      * intros Hge.
        assert (Hkd : length (read_data x) = k) by lia.
        destruct IH2 as (R1 & R2 & R3); [lia |].
        split; [| split; [exact R2 |]].
        -- rewrite R1, blit_blit, Hkd, Hdata.
           f_equal. f_equal.
           rewrite <- firstn_plus. f_equal. lia.
        -- rewrite R3, Hkd, skipn_skipn.
           replace (length p - (n + k) + k) with (length p - n) by lia.
           reflexivity.
Qed.

Lemma next_reader_empty : forall net,
  forallb calm (Sim.script net) = true ->
  Sim.closed net = false ->
  Sim.inbox net = [] ->
  snd (Sim.next_reader net) = Fail Sim.errNoMessage.
Proof.
  intros net Hcalm Hcl Hib. unfold Sim.next_reader.
  destruct (pop_reading net) as (_ & Hi & Hc).
  destruct (pop_calm net Hcalm) as [Hf _].
  destruct (Sim.pop net) as [f net0]. cbn [fst snd] in *.
  rewrite Hc, Hcl, Hi, Hib.
  destruct f; try discriminate Hf; reflexivity.
Qed.

Lemma sim_Read_ready : forall p rwc net c,
  ready c rwc net ->
  let o := run Sim.handle (Read p) rwc net in
  ready c (fields o) (world o).
Proof.
  intros p rwc net c (Hws & Hfeeds & Hcalm & Hcl) o.
  destruct (@sim_Read p rwc net c Hws Hfeeds) as (_ & H2 & H3).
  destruct (@run_inbound_frame _ (Read p) rwc net (Read_inbound p))
    as (G1 & G2 & _).
  fold o in H2, H3, G1, G2.
  repeat split; try assumption.
  - apply G1, Hcalm.
  - rewrite G2. exact Hcl.
Qed.

(** [Read] on a connection that fails no call is [deframe] on the message
    at hand, whatever the sizes of the pieces the connection hands
    over. *)
Lemma sim_Read_deframes : forall p rwc net c,
  ready c rwc net ->
  let o := run Sim.handle (Read p) rwc net in
  result o = fst (deframe p (at_hand rwc net)) /\
  at_hand (fields o) (world o) = snd (deframe p (at_hand rwc net)) /\
  (snd (fst (result o)) = Some EOF -> r (fields o) = None).
Proof.
  intros p rwc net c (Hws & Hfeeds & Hcalm & Hcl).
  assert (Hloop : forall rd rwc1 net1 rest,
            Sim.reading net1 = Some (rd, rest) ->
            r rwc1 = Some rd ->
            forallb calm (Sim.script net1) = true ->
            let o1 := run Sim.handle (Read_loop (length p) rd p 0 None)
                        rwc1 net1 in
            result o1 = fst (deframe p (Some (rest, Sim.inbox net1))) /\
            at_hand (fields o1) (world o1) =
              snd (deframe p (Some (rest, Sim.inbox net1))) /\
            (snd (fst (result o1)) = Some EOF -> r (fields o1) = None)).
  { intros rd rwc1 net1 rest Hrd Hr Hc1 o1.
    destruct (@sim_Read_loop_calm (length p) rd p 0 rwc1 net1 rest Hrd Hr
                (Nat.le_0_l _)) as [L1 L2]; [lia | exact Hc1 |].
    fold o1 in L1, L2. rewrite Nat.sub_0_r in L1, L2.
    pose proof (sim_Read_loop_inbox (length p) rd p 0 None rwc1 net1) as Hib.
    fold o1 in Hib.
    cbn [deframe]. destruct (length rest <? length p) eqn:E.
    - apply Nat.ltb_lt in E. destruct (L1 E) as (R1 & R2 & R3).
      cbn [fst snd]. split; [exact R1 |]. split.
      + unfold at_hand. rewrite R2, Hib. reflexivity.
      + intros _. rewrite R2. reflexivity.
    - apply Nat.ltb_ge in E. destruct (L2 E) as (R1 & R2 & R3).
      cbn [fst snd]. split; [exact R1 |]. split.
      + unfold at_hand. rewrite R2, Hr, R3, Hib. reflexivity.
      + rewrite R1. discriminate. }
  unfold Read. cbn [run Read_snapshot fst snd]. rewrite Hws.
  unfold feeds in Hfeeds.
  replace (at_hand rwc net) with
    (match r rwc with
     | Some _ =>
       match Sim.reading net with
       | Some (_, rest) => Some (rest, Sim.inbox net)
       | None => None
       end
     | None =>
       match Sim.inbox net with
       | m :: ms => Some (m, ms)
       | [] => None
       end
     end) by reflexivity.
  destruct (r rwc) as [rd |] eqn:Er.
  - destruct Hfeeds as [rest Hrd]. rewrite Hrd.
    apply (Hloop rd rwc net rest Hrd Er Hcalm).
  - cbn [run Sim.handle]. cbv zeta.
    pose proof (next_reader_opens net) as Hnext. cbv zeta in Hnext.
    destruct (@inbound_call_frame _ (NextReader c) net eq_refl)
      as (Hcalm1 & _).
    cbn [Sim.handle] in Hcalm1. specialize (Hcalm1 Hcalm).
    destruct (Sim.inbox net) as [| m0 ms0] eqn:Eib.
    + rewrite (next_reader_empty net Hcalm Hcl Eib) in *.
      destruct Hnext as [_ Hib].
      cbn [run result fields world deframe fst snd].
      split; [reflexivity |]. split; [| discriminate].
      unfold at_hand. rewrite Er, Hib. reflexivity.
    + assert (Hne : Sim.inbox net <> []) by (rewrite Eib; discriminate).
      destruct (next_reader_calm net Hcalm Hcl Hne) as [rd Hok].
      rewrite Hok in *.
      destruct Hnext as (m & ms & Hib & Hib' & Hrd).
      injection Hib as <- <-.
      cbn [run]. unfold Read_store. rewrite Hws. cbn [fst snd].
      cbn [result fields world].
      rewrite <- Hib'.
      apply (Hloop rd (set_r (Some rd) rwc) _ m0 Hrd eq_refl Hcalm1).
Qed.

(** ** One call, one message *)

Section OneMessage.

Variable World : Type.
Variable handle : forall X : Type, call X -> World -> World * X.

Lemma Read_loop_asks_no_message : forall turns rd p n err rwc net,
  filter is_NextReader
    (trace (run handle (Read_loop turns rd p n err) rwc net)) = [].
Proof.
  induction turns as [| turns IH]; intros rd p n err rwc net.
  - reflexivity.
  - cbn [Read_loop]. destruct (n <? length p); [| reflexivity].
    cbn [run trace filter is_NextReader].
    destruct (read_err (snd (handle (ReaderRead rd (length p - n)) net)))
      as [[| | code] |]; try reflexivity.
    apply IH.
Qed.

(** Whatever the connection answers, a [Read] asks for the next message
    at most once. *)
Lemma Read_asks_one_message : forall p rwc net,
  length (filter is_NextReader (trace (run handle (Read p) rwc net))) <= 1.
Proof.
  intros p rwc net. unfold Read. cbn [run Read_snapshot fst snd].
  destruct (ws rwc) as [c |]; [| simpl; lia].
  destruct (r rwc) as [rd |].
  - rewrite Read_loop_asks_no_message. simpl. lia.
  - cbn [run trace filter is_NextReader length].
    destruct (snd (handle (NextReader c) net)) as [rd | e];
      [| simpl; lia].
    cbn [run]. destruct (snd (Read_store rd rwc)).
    + rewrite Read_loop_asks_no_message. simpl. lia.
    + simpl. lia.
Qed.

End OneMessage.

(** C3, as stated: the first of three reads into three bytes would return
    "AB" and go on to the next message within the same call.  The first
    call returns "AB" and has asked for one message only. *)
Lemma first_read_goes_on_refuted :
  let o := run Sim.handle (Read (buf3 Byte.x00 Byte.x00 Byte.x00))
             (NewReadWriteCloser (Some 0)) (AB_CDE []) in
  ~ (firstn (fst (fst (result o))) (snd (result o)) = bytes "AB" /\
     2 <= length (filter is_NextReader (trace o))).
Proof. cbv zeta. intros [_ H]. vm_compute in H. lia. Qed.

(** C3.  With "AB" then "CDE" to deliver, no call failing and the pieces
    of any sizes, three reads into three bytes: the first call returns
    "AB" (2 bytes) with [io.EOF] and stops at the end of that message,
    having asked for one message and leaving "CDE" unopened; the second
    returns "CDE" with a nil error; the third returns no byte and
    [io.EOF].  Together the calls return "ABCDE". *)
Theorem three_reads_of_AB_CDE : forall c sc a1 a2 a3 b1 b2 b3 c1 c2 c3,
  forallb calm sc = true ->
  let rwc0 := NewReadWriteCloser (Some c) in
  let o1 := run Sim.handle (Read (buf3 a1 a2 a3)) rwc0 (AB_CDE sc) in
  let o2 := run Sim.handle (Read (buf3 b1 b2 b3)) (fields o1) (world o1) in
  let o3 := run Sim.handle (Read (buf3 c1 c2 c3)) (fields o2) (world o2) in
  result o1 = (2, Some EOF, bytes "AB" ++ [a3]) /\
  length (filter is_NextReader (trace o1)) <= 1 /\
  r (fields o1) = None /\
  Sim.inbox (world o1) = [bytes "CDE"] /\
  result o2 = (3, None, bytes "CDE") /\
  result o3 = (0, Some EOF, buf3 c1 c2 c3) /\
  fst (fst (Sim.reads [buf3 a1 a2 a3; buf3 b1 b2 b3; buf3 c1 c2 c3]
              rwc0 (AB_CDE sc))) = [bytes "AB"; bytes "CDE"; []] /\
  bytes "AB" ++ bytes "CDE" ++ [] = bytes "ABCDE".
Proof.
  intros c sc a1 a2 a3 b1 b2 b3 c1 c2 c3 Hcalm rwc0 o1 o2 o3.
  assert (Hready0 : ready c rwc0 (AB_CDE sc)).
  { repeat split; assumption. }
  destruct (@sim_Read_deframes (buf3 a1 a2 a3) _ _ c Hready0)
    as (R1 & A1 & E1).
  pose proof (@sim_Read_ready (buf3 a1 a2 a3) _ _ c Hready0) as Hready1.
  fold o1 in R1, A1, E1, Hready1.
  change (at_hand rwc0 (AB_CDE sc))
    with (Some (bytes "AB", [bytes "CDE"])) in R1, A1.
  cbn [deframe fst snd] in R1, A1.
  change (length (bytes "AB") <? length (buf3 a1 a2 a3)) with true in R1, A1.
  cbn iota in R1, A1.
  destruct (@sim_Read_deframes (buf3 b1 b2 b3) _ _ c Hready1)
    as (R2 & A2 & _).
  pose proof (@sim_Read_ready (buf3 b1 b2 b3) _ _ c Hready1) as Hready2.
  fold o2 in R2, A2, Hready2.
  rewrite A1 in R2, A2. cbn [deframe fst snd] in R2, A2.
  change (length (bytes "CDE") <? length (buf3 b1 b2 b3)) with false
    in R2, A2.
  cbn iota in R2, A2.
  destruct (@sim_Read_deframes (buf3 c1 c2 c3) _ _ c Hready2)
    as (R3 & _ & _).
  fold o3 in R3.
  rewrite A2 in R3.
  assert (Hr1 : r (fields o1) = None) by (apply E1; rewrite R1; reflexivity).
  split; [exact R1 |].
  split; [apply Read_asks_one_message |].
  split; [exact Hr1 |].
  split.
  { unfold at_hand in A1. rewrite Hr1 in A1.
    destruct (Sim.inbox (world o1)) as [| m ms]; [discriminate |].
    destruct ms; [| discriminate]. injection A1 as ->. reflexivity. }
  split; [exact R2 |].
  split; [exact R3 |].
  split; [| reflexivity].
  cbn [Sim.reads]. cbv zeta. fold o1. rewrite R1. fold o2. rewrite R2.
  fold o3. rewrite R3. reflexivity.
Qed.

(** The pieces one byte long. *)
Lemma three_reads_of_AB_CDE_witness :
  let sc := [Sim.Whole; Sim.Part 0; Sim.Part 0; Sim.Part 0;
             Sim.Whole; Sim.Part 0; Sim.Part 0; Sim.Part 0] in
  forallb calm sc = true /\
  fst (fst (Sim.reads [buf3 Byte.x00 Byte.x00 Byte.x00;
                       buf3 Byte.x00 Byte.x00 Byte.x00;
                       buf3 Byte.x00 Byte.x00 Byte.x00]
              (NewReadWriteCloser (Some 0)) (AB_CDE sc))) =
  [bytes "AB"; bytes "CDE"; []].
Proof.
  split; [reflexivity |].
  apply (@three_reads_of_AB_CDE 0
           [Sim.Whole; Sim.Part 0; Sim.Part 0; Sim.Part 0;
            Sim.Whole; Sim.Part 0; Sim.Part 0; Sim.Part 0]
           Byte.x00 Byte.x00 Byte.x00 Byte.x00 Byte.x00 Byte.x00
           Byte.x00 Byte.x00 Byte.x00 eq_refl).
Defined.

(** ** Closing, on the simulated connection *)

(** A writer left open by a failed [Write], and a [Close] whose closing of
    that writer fails: the error is returned, the connection is not
    closed, and the adapter is closed all the same. *)
Example Close_after_failed_finalize :
  let o1 := run Sim.handle (Write (bytes "ab")) (NewReadWriteCloser (Some 0))
              (Sim.connect [] [Sim.Whole; Sim.Broken 1 7; Sim.Broken 0 9]) in
  let o2 := run Sim.handle Close (fields o1) (world o1) in
  let o3 := run Sim.handle (Read (buf3 Byte.x00 Byte.x00 Byte.x00))
              (fields o2) (world o2) in
  result o2 = Some (ErrOther 9) /\
  trace o2 = [Ev (WriterClose 0) (Some (ErrOther 9))] /\
  Sim.closed (world o2) = false /\
  fields o2 = all_clear /\
  result o3 = (0, Some ErrClosedPipe, buf3 Byte.x00 Byte.x00 Byte.x00) /\
  trace o3 = [].
Proof. cbv zeta. repeat split. Qed.

(** A [Close] with nothing in progress closes the connection; a second
    one does nothing. *)
Example Close_twice :
  let o1 := run Sim.handle Close (NewReadWriteCloser (Some 0))
              (Sim.connect [] []) in
  let o2 := run Sim.handle Close (fields o1) (world o1) in
  result o1 = None /\ trace o1 = [Ev (ConnClose 0) None] /\
  Sim.closed (world o1) = true /\
  result o2 = None /\ trace o2 = [] /\ world o2 = world o1.
Proof. cbv zeta. repeat split. Qed.

(** * Further properties *)

(** ** The calls each operation makes *)

Section Calls.

Variable World : Type.
Variable handle : forall X : Type, call X -> World -> World * X.

Lemma run_inbound_trace : forall (A : Type) (P : prog A) rwc net,
  inbound_only P ->
  forallb event_inbound (trace (run handle P rwc net)) = true.
Proof.
  induction P as [a | X sec k IH | X c k IH]; intros rwc net HP; simpl in *.
  - reflexivity.
  - apply IH, HP.
  - destruct HP as [Hc Hk]. rewrite Hc. simpl. apply IH, Hk.
Qed.

Lemma run_outbound_trace : forall (A : Type) (P : prog A) rwc net,
  outbound_only P ->
  forallb event_outbound (trace (run handle P rwc net)) = true.
Proof.
  induction P as [a | X sec k IH | X c k IH]; intros rwc net HP; simpl in *.
  - reflexivity.
  - apply IH, HP.
  - destruct HP as [Hc Hk]. rewrite Hc. simpl. apply IH, Hk.
Qed.

Lemma outbound_bind : forall (A B : Type) (P : prog A) (f : A -> prog B),
  outbound_only P -> (forall a, outbound_only (f a)) ->
  outbound_only (bind P f).
Proof.
  induction P as [a | X sec k IH | X c k IH]; intros f HP Hf; simpl in *.
  - apply Hf.
  - intros x. apply IH; [apply HP | exact Hf].
  - destruct HP as [Hc Hk]. split; [exact Hc |].
    intros x. apply IH; [apply Hk | exact Hf].
Qed.

Lemma Write_loop_outbound : forall turns wr p n,
  outbound_only (Write_loop turns wr p n).
Proof.
  induction turns as [| turns IH]; intros wr p n; simpl.
  - exact I.
  - destruct (n <? length p); simpl; [| exact I].
    split; [reflexivity |].
    intros x. destruct (write_err x); simpl; [exact I | apply IH].
Qed.

Lemma Write_body_outbound : forall wr p err,
  outbound_only (Write_body wr p err).
Proof.
  intros wr p err. unfold Write_body.
  apply outbound_bind; [apply Write_loop_outbound |].
  intros n. destruct err, (n =? length p); simpl; try exact I;
    (split; [reflexivity | intros x y; exact I]).
Qed.

Lemma Write_outbound : forall p, outbound_only (Write p).
Proof.
  intros p. unfold Write. simpl.
  intros [[c |] [wr |]]; simpl; try exact I.
  - apply Write_body_outbound.
  - split; [reflexivity |].
    intros [wr | e]; simpl; [| exact I].
    intros [|]; simpl; [apply Write_body_outbound |].
    split; [reflexivity | intros x; exact I].
Qed.

Lemma Write_loop_trace : forall turns wr p n rwc net,
  filter is_NextWriter
    (trace (run handle (Write_loop turns wr p n) rwc net)) = [].
Proof.
  induction turns as [| turns IH]; intros wr p n rwc net.
  - reflexivity.
  - cbn [Write_loop]. destruct (n <? length p); [| reflexivity].
    cbn [run trace filter is_NextWriter].
    destruct (write_err (snd (handle (WriterWrite wr (skipn n p)) net)));
      [reflexivity | apply IH].
Qed.

Lemma Write_body_trace : forall wr p err rwc net,
  filter is_NextWriter
    (trace (run handle (Write_body wr p err) rwc net)) = [].
Proof.
  intros wr p err rwc net. unfold Write_body. rewrite run_bind. cbv zeta.
  cbn [trace]. rewrite filter_app, Write_loop_trace.
  destruct err,
    (result (run handle (Write_loop (length p) wr p 0) rwc net) =? length p);
    reflexivity.
Qed.

(** X1.  Whatever the connection answers, a [Read] calls its inbound side
    only (never a writer, never the closing of the connection); it asks
    for the next message at most once, and not at all when the adapter
    holds a reader. *)
Theorem Read_calls : forall p rwc net,
  let tr := trace (run handle (Read p) rwc net) in
  forallb event_inbound tr = true /\
  length (filter is_NextReader tr) <= 1 /\
  (r rwc <> None -> filter is_NextReader tr = []).
Proof.
  intros p rwc net tr. split; [| split].
  - apply run_inbound_trace, Read_inbound.
  - apply Read_asks_one_message.
  - intros Hr. subst tr. unfold Read. cbn [run Read_snapshot fst snd].
    destruct (ws rwc) as [c |]; [| reflexivity].
    destruct (r rwc) as [rd |]; [| contradiction].
    apply Read_loop_asks_no_message.
Qed.

Lemma Write_loop_taken : forall turns wr p n rwc net,
  let o := run handle (Write_loop turns wr p n) rwc net in
  firstn (result o) p = firstn n p ++ taken (trace o) /\
  forallb (on_writer wr) (trace o) = true.
Proof.
  induction turns as [| turns IH]; intros wr p n rwc net.
  - simpl. rewrite app_nil_r. split; reflexivity.
  - cbn [Write_loop]. destruct (n <? length p).
    2:{ simpl. rewrite app_nil_r. split; reflexivity. }
    cbn [run]. cbv zeta. cbn [result trace].
    unfold taken. cbn [flat_map event_taken forallb on_writer].
    rewrite Nat.eqb_refl. cbn [andb].
    set (x := snd (handle (WriterWrite wr (skipn n p)) net)).
    set (net1 := fst (handle (WriterWrite wr (skipn n p)) net)).
    destruct (write_err x).
    + cbn [run result trace flat_map forallb].
      rewrite app_nil_r. split; [apply firstn_plus | reflexivity].
    + destruct (IH wr p (n + write_count x) rwc net1) as [H1 H2].
      cbv zeta in H1, H2. split; [| exact H2].
      rewrite H1, firstn_plus, <- app_assoc. reflexivity.
Qed.

Lemma Write_body_taken : forall wr p err rwc net,
  let o := run handle (Write_body wr p err) rwc net in
  taken (trace o) = firstn (fst (result o)) p /\
  forallb (on_writer wr) (trace o) = true.
Proof.
  intros wr p err rwc net. unfold Write_body. rewrite run_bind. cbv zeta.
  destruct (Write_loop_taken (length p) wr p 0 rwc net) as [H1 H2].
  cbv zeta in H1, H2. rewrite firstn_O in H1. cbn [app] in H1.
  set (o1 := run handle (Write_loop (length p) wr p 0) rwc net) in *.
  unfold taken in *. cbn [trace result].
  rewrite flat_map_app, forallb_app, H2, <- H1.
  destruct err, (result o1 =? length p);
    cbn [run result trace fst flat_map event_taken forallb on_writer app andb];
    rewrite ?Nat.eqb_refl, ?app_nil_r; split; reflexivity.
Qed.

(** X2.  Whatever the connection answers, a [Write] calls its outbound
    side only (never a reader, never the closing of the connection); it
    asks for a new message at most once, and not at all when the adapter
    holds a writer: then every call it makes is on that writer, so the
    bytes go into the message left open.  The bytes the writers took,
    call after call, are the slice [p[:n]] of the count returned. *)
Theorem Write_calls : forall p rwc net,
  let o := run handle (Write p) rwc net in
  let tr := trace o in
  forallb event_outbound tr = true /\
  length (filter is_NextWriter tr) <= 1 /\
  (w rwc <> None -> filter is_NextWriter tr = []) /\
  taken tr = firstn (fst (result o)) p /\
  (forall wr, w rwc = Some wr -> forallb (on_writer wr) tr = true).
Proof.
  intros p rwc net o tr.
  assert (Hopen : forall wr, w rwc = Some wr ->
                             filter is_NextWriter tr = []).
  { intros wr Hw. subst tr o. unfold Write. cbn [run Write_snapshot fst snd].
    destruct (ws rwc) as [c |]; [| reflexivity].
    rewrite Hw. apply Write_body_trace. }
  split; [| split; [| split; [| split]]].
  - apply run_outbound_trace, Write_outbound.
  - destruct (w rwc) as [wr |] eqn:Ew.
    + rewrite (Hopen wr eq_refl). simpl. lia.
    + subst tr o. unfold Write. cbn [run Write_snapshot fst snd].
      destruct (ws rwc) as [c |]; [| simpl; lia].
      rewrite Ew. cbn [run trace filter is_NextWriter length].
      destruct (snd (handle (NextWriter c TextMessage) net)) as [wr | e];
        [| simpl; lia].
      cbn [run]. destruct (snd (Write_store wr rwc)).
      * rewrite Write_body_trace. simpl. lia.
      * simpl. lia.
  - intros Hw. destruct (w rwc) as [wr |] eqn:Ew; [| contradiction].
    apply (Hopen wr eq_refl).
  - subst tr o. unfold Write. cbn [run Write_snapshot fst snd].
    destruct (ws rwc) as [c |]; [| reflexivity].
    destruct (w rwc) as [wr |]; [apply Write_body_taken |].
    cbn [run trace result]. unfold taken. cbn [flat_map event_taken app].
    destruct (snd (handle (NextWriter c TextMessage) net)) as [wr | e];
      [| reflexivity].
    cbn [run]. destruct (snd (Write_store wr rwc)).
    + apply Write_body_taken.
    + reflexivity.
  - intros wr Hw. subst tr o. unfold Write. cbn [run Write_snapshot fst snd].
    destruct (ws rwc) as [c |]; [| reflexivity].
    rewrite Hw. apply Write_body_taken.
Qed.

End Calls.

(** ** Errors of the reader, and the closing of the writer *)

Section Errors.

Variable World : Type.
Variable handle : forall X : Type, call X -> World -> World * X.

(** An error of the reader ends the loop of [Read] and is what it
    leaves in [err]. *)
Lemma Read_loop_error : forall turns rd p n err rwc net ev e,
  In ev (trace (run handle (Read_loop turns rd p n err) rwc net)) ->
  event_read_err ev = Some e ->
  snd (fst (result (run handle (Read_loop turns rd p n err) rwc net))) =
  Some e.
Proof.
  induction turns as [| turns IH]; intros rd p n err rwc net ev e.
  - simpl. contradiction.
  - cbn [Read_loop]. destruct (n <? length p); [| simpl; contradiction].
    cbn [run trace result]. cbv zeta.
    set (x := snd (handle (ReaderRead rd (length p - n)) net)).
    intros [Hev | Hin] He.
    + subst ev. cbn [event_read_err] in He. rewrite He.
      destruct e; reflexivity.
    + destruct (read_err x) as [[| | code] |]; cbn [run trace] in Hin;
        try contradiction.
      apply (IH rd _ _ _ rwc _ ev e Hin He).
Qed.

(** X3.  When the reader fails with an error other than [io.EOF], [Read]
    returns the bytes read so far together with that error, and keeps
    the reader in the adapter: the next [Read] goes to the same reader
    again.  The other fields are left alone. *)
Theorem Read_returns_reader_error : forall p rwc net ev e,
  let o := run handle (Read p) rwc net in
  In ev (trace o) ->
  event_read_err ev = Some e ->
  e <> EOF ->
  snd (fst (result o)) = Some e /\
  fst (fst (result o)) = length (delivered (trace o)) /\
  snd (result o) = blit p 0 (delivered (trace o)) /\
  r (fields o) <> None /\
  ws (fields o) = ws rwc /\ w (fields o) = w rwc.
Proof.
  intros p rwc net ev e.
  assert (Hloop : forall rd rwc1 net1,
            r rwc1 = Some rd ->
            let o1 := run handle (Read_loop (length p) rd p 0 None)
                        rwc1 net1 in
            In ev (trace o1) ->
            event_read_err ev = Some e ->
            e <> EOF ->
            snd (fst (result o1)) = Some e /\
            fst (fst (result o1)) = length (delivered (trace o1)) /\
            snd (result o1) = blit p 0 (delivered (trace o1)) /\
            fields o1 = rwc1).
  { intros rd rwc1 net1 Hr o1 Hin He Hne.
    pose proof (@Read_loop_error (length p) rd p 0 None rwc1 net1 ev e
                  Hin He) as Herr.
    destruct (@Read_loop_run World handle (length p) rd p 0 None rwc1 net1)
      as (H1 & H2 & H3 & H4).
    fold o1 in Herr, H1, H2, H3, H4.
    repeat split; try assumption.
    destruct (end_of_message (trace o1)) eqn:Eeom; [| exact H4].
    rewrite (H3 eq_refl) in Herr. injection Herr as <-. contradiction. }
  unfold Read. cbn [run Read_snapshot fst snd].
  destruct (ws rwc) as [c |] eqn:Ews; [| simpl; contradiction].
  destruct (r rwc) as [rd |] eqn:Er.
  - cbv zeta. intros Hin He Hne.
    destruct (Hloop rd rwc net Er Hin He Hne) as (H1 & H2 & H3 & H4).
    rewrite H4, Er. repeat split; try assumption. discriminate.
  - cbn [run result fields trace]. cbv zeta.
    destruct (snd (handle (NextReader c) net)) as [rd | e0].
    + cbn [run]. unfold Read_store. rewrite Ews. cbn [fst snd].
      intros [Hev | Hin] He Hne.
      { subst ev. discriminate He. }
      destruct (Hloop rd (set_r (Some rd) rwc) _ eq_refl Hin He Hne)
        as (H1 & H2 & H3 & H4).
      rewrite H4, delivered_cons. cbn [event_data app set_r ws r w].
      repeat split; try assumption. discriminate.
    + cbn [run trace]. intros [Hev | []] He Hne.
      subst ev. discriminate He.
Qed.

(** The loop of [Write] with the closing that follows it. *)
Lemma Write_body_finalizes : forall wr p rwc net,
  let o := run handle (Write_body wr p None) rwc net in
  existsb is_WriterClose (trace o) = true ->
  exists tr',
    trace o = tr' ++ [Ev (WriterClose wr) (snd (result o))] /\
    existsb is_WriterClose tr' = false /\
    fst (result o) = length p /\
    fields o = fst (Write_clear wr rwc).
Proof.
  intros wr p rwc net. unfold Write_body. rewrite run_bind. cbv zeta.
  destruct (@Write_loop_run World handle (length p) wr p 0 rwc net)
    as [Hf Htr].
  set (o1 := run handle (Write_loop (length p) wr p 0) rwc net) in *.
  destruct (result o1 =? length p) eqn:E.
  - apply Nat.eqb_eq in E. cbn [run result fields trace fst snd].
    intros _. exists (trace o1).
    rewrite Hf. repeat split; assumption.
  - cbn [run result fields trace]. rewrite app_nil_r, Htr. discriminate.
Qed.

(** X4.  When a [Write] on an open adapter closes its writer, that is
    the last call it makes and the only closing; the count returned is
    the whole length of the buffer, the error returned is the result of
    the closing, and no writer is left in the adapter. *)
Theorem Write_finalizes_last : forall p rwc net c,
  ws rwc = Some c ->
  let o := run handle (Write p) rwc net in
  existsb is_WriterClose (trace o) = true ->
  exists wr tr',
    trace o = tr' ++ [Ev (WriterClose wr) (snd (result o))] /\
    existsb is_WriterClose tr' = false /\
    fst (result o) = length p /\
    w (fields o) = None /\
    r (fields o) = r rwc /\ ws (fields o) = ws rwc.
Proof.
  intros p rwc net c Hws. unfold Write. cbn [run Write_snapshot fst snd].
  rewrite Hws. destruct (w rwc) as [wr |] eqn:Ew.
  - cbv zeta. intros Hcl.
    destruct (@Write_body_finalizes wr p rwc net Hcl)
      as (tr' & H1 & H2 & H3 & H4).
    exists wr, tr'. rewrite H4. unfold Write_clear. cbn [fst].
    rewrite Ew, same_handle_refl. cbn [w r ws set_w].
    repeat split; assumption.
  - cbn [run result fields trace]. cbv zeta.
    destruct (snd (handle (NextWriter c TextMessage) net)) as [wr | e];
      [| simpl; discriminate].
    cbn [run]. unfold Write_store. rewrite Hws. cbn [fst snd].
    cbn [existsb is_WriterClose orb]. intros Hcl.
    destruct (@Write_body_finalizes wr p _ _ Hcl)
      as (tr' & H1 & H2 & H3 & H4).
    exists wr, (Ev (NextWriter c TextMessage) (Ok wr) :: tr').
    rewrite H4, H1. unfold Write_clear. cbn [fst w set_w].
    rewrite same_handle_refl. cbn [w r ws set_w].
    repeat split; try assumption. 
Qed.

End Errors.

(** ** The connection under concurrent calls *)

Lemma within_Read_store : forall (c : option Conn) rd rwc,
  ws rwc = None \/ ws rwc = c ->
  ws (fst (Read_store rd rwc)) = None \/ ws (fst (Read_store rd rwc)) = c.
Proof. intros c rd rwc H. unfold Read_store. destruct (ws rwc) eqn:E; simpl; rewrite ?E; exact H. Qed.

Lemma within_Read_clear : forall (c : option Conn) rd rwc,
  ws rwc = None \/ ws rwc = c ->
  ws (fst (Read_clear rd rwc)) = None \/ ws (fst (Read_clear rd rwc)) = c.
Proof.
  intros c rd rwc H. unfold Read_clear. simpl.
  destruct (same_handle (r rwc) (Some rd)); exact H.
Qed.

Lemma within_Write_store : forall (c : option Conn) wr rwc,
  ws rwc = None \/ ws rwc = c ->
  ws (fst (Write_store wr rwc)) = None \/ ws (fst (Write_store wr rwc)) = c.
Proof. intros c wr rwc H. unfold Write_store. destruct (ws rwc) eqn:E; simpl; rewrite ?E; exact H. Qed.

Lemma within_Write_clear : forall (c : option Conn) wr rwc,
  ws rwc = None \/ ws rwc = c ->
  ws (fst (Write_clear wr rwc)) = None \/ ws (fst (Write_clear wr rwc)) = c.
Proof.
  intros c wr rwc H. unfold Write_clear. simpl.
  destruct (same_handle (w rwc) (Some wr)); exact H.
Qed.

Lemma within_Close_take : forall (c : option Conn) rwc,
  ws rwc = None \/ ws rwc = c ->
  ws (fst (Close_take rwc)) = None \/ ws (fst (Close_take rwc)) = c.
Proof. intros c rwc _. left. reflexivity. Qed.

(** The calls in progress keep respecting a property the sections keep,
    whether it holds of the fields or not. *)
Lemma steps_pool_closed : forall World handle (c1 c2 : config World),
  steps handle c1 c2 ->
  Forall (task_respects is_closed) (c_pool c1) ->
  Forall (task_respects is_closed) (c_pool c2).
Proof.
  intros World handle c1 c2 Hsteps H.
  induction Hsteps as [c | c1 c2 c3 _ IH Hstep]; [exact H |].
  specialize (IH H).
  destruct Hstep as [rwc net ts o | rwc net ts1 ts2 A X sec k
                     | rwc net ts1 ts2 A X c k]; simpl in *.
  - apply Forall_app. split; [exact IH |].
    constructor; [| constructor].
    apply (@start_respects is_closed closed_Read_store closed_Read_clear
             closed_Write_store closed_Write_clear closed_Close_take).
  - apply Forall_app in IH. destruct IH as [H1 H2].
    inversion H2 as [| t ts Ht Hts]; subst. simpl in Ht.
    apply Forall_app. split; [exact H1 |].
    constructor; [apply Ht | exact Hts].
  - apply Forall_app in IH. destruct IH as [H1 H2].
    inversion H2 as [| t ts Ht Hts]; subst. simpl in Ht.
    apply Forall_app. split; [exact H1 |].
    constructor; [apply Ht | exact Hts].
Qed.

(** X5.  Under any interleaving of any number of calls, the connection
    field of an adapter made for [c] holds [c] or nil, never another
    connection; and once it is nil it stays nil, whatever calls are in
    progress or start later. *)
Theorem connection_lifecycle : forall World handle (c : option Conn)
    (net : World) cfg1 cfg2,
  steps handle (initial c net) cfg1 ->
  steps handle cfg1 cfg2 ->
  (ws (c_fields cfg1) = None \/ ws (c_fields cfg1) = c) /\
  (ws (c_fields cfg1) = None -> ws (c_fields cfg2) = None).
Proof.
  intros World handle c net cfg1 cfg2 H1 H2. split.
  - apply (@steps_keep (fun rwc => ws rwc = None \/ ws rwc = c)
             (@within_Read_store c) (@within_Read_clear c)
             (@within_Write_store c) (@within_Write_clear c)
             (@within_Close_take c) World handle _ _ H1).
    split; [right; reflexivity | constructor].
  - intros Hclosed.
    apply (@closed_stays_closed World handle cfg1 cfg2 H2);
      [| exact Hclosed].
    apply (@steps_pool_closed World handle _ _ H1). constructor.
Qed.

(** *** The connection is closed at most once *)

Lemma may_close_more : forall (A : Type) (P : prog A) b1 b2,
  b1 <= b2 -> may_close b1 P -> may_close b2 P.
Proof.
  induction P as [a | X sec k IH | X c k IH]; intros b1 b2 Hle H;
    simpl in *.
  - exact I.
  - intros rwc. destruct (H rwc) as (b' & Hb & Hk).
    exists b'. split; [lia | exact Hk].
  - destruct (is_conn_close c).
    + destruct H as [H1 Hk]. split; [lia |].
      intros x. apply (IH x (b1 - 1)); [lia | apply Hk].
    + intros x. apply (IH x b1); [exact Hle | apply H].
Qed.

Lemma steady_bind : forall (A B : Type) (P : prog A) (f : A -> prog B) b,
  steady P -> (forall a, may_close b (f a)) -> may_close b (bind P f).
Proof.
  induction P as [a | X sec k IH | X c k IH]; intros f b HP Hf; simpl in *.
  - apply Hf.
  - destruct HP as [Hsec Hk]. intros rwc. exists b.
    split; [rewrite Hsec; lia |]. apply IH; [apply Hk | exact Hf].
  - destruct HP as [Hc Hk]. rewrite Hc.
    intros x. apply IH; [apply Hk | exact Hf].
Qed.

Lemma steady_may_close : forall (A : Type) (P : prog A) b,
  steady P -> may_close b P.
Proof.
  induction P as [a | X sec k IH | X c k IH]; intros b HP; simpl in *.
  - exact I.
  - destruct HP as [Hsec Hk]. intros rwc. exists b.
    split; [rewrite Hsec; lia |]. apply IH, Hk.
  - destruct HP as [Hc Hk]. rewrite Hc. intros x. apply IH, Hk.
Qed.

Lemma token_Read_store : forall rd rwc,
  token (fst (Read_store rd rwc)) = token rwc.
Proof.
  intros rd rwc. unfold Read_store, token.
  destruct (ws rwc) eqn:E; simpl; rewrite ?E; reflexivity.
Qed.

Lemma token_Read_clear : forall rd rwc,
  token (fst (Read_clear rd rwc)) = token rwc.
Proof.
  intros rd rwc. unfold Read_clear, token. simpl.
  destruct (same_handle (r rwc) (Some rd)); reflexivity.
Qed.

Lemma token_Write_store : forall wr rwc,
  token (fst (Write_store wr rwc)) = token rwc.
Proof.
  intros wr rwc. unfold Write_store, token.
  destruct (ws rwc) eqn:E; simpl; rewrite ?E; reflexivity.
Qed.

Lemma token_Write_clear : forall wr rwc,
  token (fst (Write_clear wr rwc)) = token rwc.
Proof.
  intros wr rwc. unfold Write_clear, token. simpl.
  destruct (same_handle (w rwc) (Some wr)); reflexivity.
Qed.

Lemma Read_loop_steady : forall turns rd p n err,
  steady (Read_loop turns rd p n err).
Proof.
  induction turns as [| turns IH]; intros rd p n err; simpl.
  - exact I.
  - destruct (n <? length p); simpl; [| exact I].
    split; [reflexivity |].
    intros x. destruct (read_err x) as [[| | code] |]; simpl;
      try exact I; [| apply IH].
    split; [apply token_Read_clear | intros _; exact I].
Qed.

Lemma Read_steady : forall p, steady (Read p).
Proof.
  intros p. unfold Read. simpl. split; [reflexivity |].
  intros [[c |] [rd |]]; simpl; try exact I.
  - apply Read_loop_steady.
  - split; [reflexivity |].
    intros [rd | e]; simpl; [| exact I].
    split; [apply token_Read_store |].
    intros [|]; simpl; [apply Read_loop_steady | exact I].
Qed.

Lemma Write_loop_steady : forall turns wr p n,
  steady (Write_loop turns wr p n).
Proof.
  induction turns as [| turns IH]; intros wr p n; simpl.
  - exact I.
  - destruct (n <? length p); simpl; [| exact I].
    split; [reflexivity |].
    intros x. destruct (write_err x); simpl; [exact I | apply IH].
Qed.

Lemma Write_body_may_close : forall wr p err b,
  may_close b (Write_body wr p err).
Proof.
  intros wr p err b. unfold Write_body.
  apply steady_bind; [apply Write_loop_steady |].
  intros n. destruct err, (n =? length p); simpl; try exact I;
    intros closeErr rwc; exists b;
    (split; [| exact I]);
    pose proof (token_Write_clear wr rwc) as E;
    unfold Write_clear in E; cbn [fst] in E; rewrite E; lia.
Qed.

Lemma Write_may_close : forall p b, may_close b (Write p).
Proof.
  intros p b. unfold Write. simpl. intros rwc. exists b.
  split; [lia |].
  destruct (ws rwc) as [c |]; simpl; [| exact I].
  destruct (w rwc) as [wr |]; simpl; [apply Write_body_may_close |].
  intros [wr | e]; simpl; [| exact I].
  intros rwc1. exists b.
  split; [pose proof (token_Write_store wr rwc1) as E; simpl in E |- *;
          rewrite E; lia |].
  destruct (snd (Write_store wr rwc1)); simpl;
    [apply Write_body_may_close | intros _; exact I].
Qed.

(** [Close] closes the connection only if its section took it out of the
    adapter. *)
Lemma Close_may_close : may_close 0 Close.
Proof.
  unfold Close. simpl. intros rwc. exists (token rwc).
  split; [lia |].
  unfold token.
  destruct (w rwc) as [wr |], (ws rwc) as [c |]; simpl;
    try exact I; try (split; [lia | intros x; exact I]).
  - intros [e |]; simpl; [exact I |]. split; [lia | intros x; exact I].
  - intros [e |]; simpl; exact I.
Qed.

Lemma start_may_close : forall o, task_may_close 0 (start o).
Proof.
  intros [p | p |]; cbn [start task_may_close].
  - apply steady_may_close, Read_steady.
  - apply Write_may_close.
  - apply Close_may_close.
Qed.

Lemma pool_closes_split : forall ts1 t ts2 n,
  pool_closes (ts1 ++ t :: ts2) n ->
  exists bs1 b bs2,
    n = list_sum bs1 + (b + list_sum bs2) /\
    Forall2 task_may_close bs1 ts1 /\ task_may_close b t /\
    Forall2 task_may_close bs2 ts2.
Proof.
  intros ts1 t ts2 n (bs & H & Hn).
  apply Forall2_app_inv_r in H. destruct H as (bs1 & bs' & H1 & H2 & E).
  inversion H2 as [| b t' bs2 ts' Hb Hbs2]; subst.
  exists bs1, b, bs2. rewrite list_sum_app. simpl.
  repeat split; assumption.
Qed.

Lemma pool_closes_join : forall bs1 ts1 b t bs2 ts2,
  Forall2 task_may_close bs1 ts1 -> task_may_close b t ->
  Forall2 task_may_close bs2 ts2 ->
  pool_closes (ts1 ++ t :: ts2) (list_sum bs1 + (b + list_sum bs2)).
Proof.
  intros bs1 ts1 b t bs2 ts2 H1 Hb H2. exists (bs1 ++ b :: bs2). split.
  - apply Forall2_app; [exact H1 | constructor; assumption].
  - rewrite list_sum_app. reflexivity.
Qed.

Lemma count_ConnClose_snoc : forall (X : Type) (c : call X) (x : X) log,
  length (filter is_ConnClose (log ++ [Ev c x])) =
  length (filter is_ConnClose log) + (if is_conn_close c then 1 else 0).
Proof.
  intros X c x log. rewrite filter_app, length_app.
  destruct c; reflexivity.
Qed.

Section ClosedOnce.

Variable World : Type.
Variable handle : forall X : Type, call X -> World -> World * X.

Lemma step_one_closing : forall cfg1 cfg2,
  step (logged handle) cfg1 cfg2 -> one_closing cfg1 -> one_closing cfg2.
Proof.
  intros cfg1 cfg2 Hstep (n & Hpool & Hle).
  destruct Hstep as [rwc net ts o | rwc net ts1 ts2 A X sec k
                     | rwc net ts1 ts2 A X c k]; simpl in *.
  - exists n. split; [| exact Hle].
    destruct Hpool as (bs & Hbs & Hn). exists (bs ++ [0]). split.
    + apply Forall2_app; [exact Hbs |].
      constructor; [apply start_may_close | constructor].
    + rewrite list_sum_app. simpl. lia.
  - apply pool_closes_split in Hpool.
    destruct Hpool as (bs1 & b & bs2 & En & H1 & Hb & H2).
    cbn [task_may_close may_close] in Hb.
    destruct (Hb rwc) as (b' & Hb' & Hk).
    exists (list_sum bs1 + (b' + list_sum bs2)). split.
    + apply pool_closes_join; assumption.
    + cbn [c_fields c_world]. lia.
  - apply pool_closes_split in Hpool.
    destruct Hpool as (bs1 & b & bs2 & En & H1 & Hb & H2).
    cbn [task_may_close may_close] in Hb.
    unfold one_closing. cbn [c_fields c_world c_pool snd].
    rewrite count_ConnClose_snoc.
    destruct (is_conn_close c).
    + destruct Hb as [Hb1 Hk].
      exists (list_sum bs1 + ((b - 1) + list_sum bs2)). split.
      * apply pool_closes_join; try assumption. apply Hk.
      * lia.
    + exists (list_sum bs1 + (b + list_sum bs2)). split.
      * apply pool_closes_join; try assumption. apply Hb.
      * lia.
Qed.

Lemma steps_one_closing : forall cfg1 cfg2,
  steps (logged handle) cfg1 cfg2 -> one_closing cfg1 -> one_closing cfg2.
Proof.
  intros cfg1 cfg2 Hsteps H.
  induction Hsteps as [cfg | cfg1 cfg2 cfg3 _ IH Hstep]; [exact H |].
  apply (step_one_closing Hstep), IH, H.
Qed.

(** X6.  Under any interleaving of any number of calls of [Read], [Write]
    and [Close] on one adapter, the connection is closed at most once:
    whatever the environment answers, its log holds at most one
    [ws.Close]. *)
Theorem connection_closed_once : forall c net cfg,
  steps (logged handle) (initial c (net, [])) cfg ->
  length (filter is_ConnClose (snd (c_world cfg))) <= 1.
Proof.
  intros c net cfg Hsteps.
  assert (H : one_closing cfg).
  { apply (steps_one_closing Hsteps).
    exists 0. split; [exists []; split; constructor |].
    cbn [initial c_fields c_world snd filter length].
    unfold token. destruct c; simpl; lia. }
  destruct H as (n & _ & Hle). lia.
Qed.

End ClosedOnce.

(** ** What reads return, and where they put it *)

Lemma sim_read_results : forall ps rwc net c,
  ready c rwc net ->
  read_results ps rwc net = deframes ps (at_hand rwc net).
Proof.
  induction ps as [| p ps IH]; intros rwc net c Hready.
  - reflexivity.
  - cbn [read_results deframes]. cbv zeta.
    destruct (@sim_Read_deframes p rwc net c Hready) as (H1 & H2 & _).
    rewrite H1, (IH _ _ c (@sim_Read_ready p rwc net c Hready)), H2.
    reflexivity.
Qed.

(** C5, as stated: no boundary between the messages would show in what
    the reads return.  The streams "AB", "CDE" and "ABCDE" carry the same
    bytes, and reads into five bytes tell them apart: on the first stream
    the first call returns 2 bytes with [io.EOF] and the second "CDE", on
    the second stream the first call returns all 5 bytes with a nil
    error. *)
Lemma reads_hide_the_boundaries_refuted :
  let rwc0 := NewReadWriteCloser (Some 0) in
  let apart := [bytes "AB"; bytes "CDE"] in
  let joined := [bytes "ABCDE"] in
  concat apart = concat joined /\
  read_results [buf5; buf5] rwc0 (Sim.connect apart []) =
    [(2, Some EOF, bytes "AB" ++ [Byte.x00; Byte.x00; Byte.x00]);
     (3, Some EOF, bytes "CDE" ++ [Byte.x00; Byte.x00])] /\
  read_results [buf5; buf5] rwc0 (Sim.connect joined []) =
    [(5, None, bytes "ABCDE"); (0, Some EOF, buf5)] /\
  ~ (forall msgs1 msgs2 ps,
       concat msgs1 = concat msgs2 ->
       read_results ps rwc0 (Sim.connect msgs1 []) =
       read_results ps rwc0 (Sim.connect msgs2 [])).
Proof.
  cbv zeta. split; [reflexivity |]. split; [reflexivity |].
  split; [reflexivity |].
  intros H.
  specialize (H [bytes "AB"; bytes "CDE"] [bytes "ABCDE"] [buf5] eq_refl).
  vm_compute in H. discriminate H.
Qed.

(** C5.  Reads of any sizes, one after the other, against a
    connection that delivers the messages [msgs]: the slices returned, one
    after the other, followed by what is still unread, are the messages
    one after the other.  No byte is lost, repeated or moved, whatever the
    sizes of the buffers and however the connection cuts or fails the
    calls.  Once nothing is left unread the slices are the whole stream;
    and reads into buffers with room, none of them failed by the
    connection, leave nothing unread when there are twice as many of them
    as bytes and messages.
    The boundaries of the messages show in what the calls return.  When no
    call fails, whatever the pieces, every call returns what [deframe]
    gives on the message at hand; and at any point of such a run, a read
    into a buffer that holds more than what is left of the message at
    hand returns that rest alone, a short count, together with
    [io.EOF]. *)
Theorem reads_are_the_stream : forall msgs sc ps c,
  let rwc0 := NewReadWriteCloser (Some c) in
  let net0 := Sim.connect msgs sc in
  let outs := fst (fst (Sim.reads ps rwc0 net0)) in
  let left := Sim.unread (snd (Sim.reads ps rwc0 net0)) in
  concat outs ++ left = concat msgs /\
  (left = [] -> concat outs = concat msgs) /\
  (forallb calm sc = true ->
   Forall (fun p => p <> []) ps ->
   2 * (length (concat msgs) + length msgs) <= length ps ->
   concat outs = concat msgs) /\
  (forallb calm sc = true ->
   read_results ps rwc0 net0 = deframes ps (upcoming msgs)) /\
  (forall rwc net p rest ms,
   ready c rwc net ->
   at_hand rwc net = Some (rest, ms) ->
   length rest < length p ->
   result (run Sim.handle (Read p) rwc net) =
     (length rest, Some EOF, blit p 0 rest)).
Proof.
  intros msgs sc ps c rwc0 net0 outs left.
  assert (H : concat outs ++ left = concat msgs).
  { subst outs left. rewrite (@sim_reads ps rwc0 net0 c); reflexivity. }
  assert (Hdone : left = [] -> concat outs = concat msgs).
  { intros Hleft. rewrite Hleft, app_nil_r in H. exact H. }
  split; [exact H |]. split; [exact Hdone |].
  split; [| split].
  - intros Hcalm Hps Hlen. apply Hdone. subst left.
    apply (@sim_reads_reach_the_end ps rwc0 net0 c); try reflexivity;
      try assumption.
    subst rwc0 net0. unfold backlog, Sim.unread.
    cbn [Sim.connect Sim.reading Sim.inbox NewReadWriteCloser r app].
    lia.
  - intros Hcalm. rewrite (@sim_read_results ps rwc0 net0 c).
    + reflexivity.
    + repeat split; assumption.
  - intros rwc net p rest ms Hready Hat Hlen.
    destruct (@sim_Read_deframes p rwc net c Hready) as (H1 & _).
    cbv zeta in H1. rewrite H1, Hat. unfold deframe.
    apply Nat.ltb_lt in Hlen. rewrite Hlen. reflexivity.
Qed.

(** X7.  On a connection that fails no call, what a sequence of reads
    returns (counts, errors and buffers) is a function of the messages
    and of the buffers alone: however the connection cuts the messages
    into pieces, the calls return what [deframe] gives, message by
    message. *)
Theorem reads_whatever_the_pieces : forall msgs sc ps c,
  forallb calm sc = true ->
  read_results ps (NewReadWriteCloser (Some c)) (Sim.connect msgs sc) =
  deframes ps (upcoming msgs).
Proof.
  intros msgs sc ps c Hcalm.
  rewrite (@sim_read_results ps _ _ c).
  - reflexivity.
  - repeat split; assumption.
Qed.

Lemma reads_whatever_the_pieces_witness :
  forallb calm [Sim.Part 0; Sim.Whole; Sim.Part 1] = true /\
  read_results [buf3 Byte.x00 Byte.x00 Byte.x00; []; bytes "12"]
    (NewReadWriteCloser (Some 0))
    (Sim.connect [bytes "AB"; bytes "CDE"]
       [Sim.Part 0; Sim.Whole; Sim.Part 1]) =
  [(2, Some EOF, bytes "AB" ++ [Byte.x00]); (0, None, []);
   (2, None, bytes "CD")].
Proof.
  split; [reflexivity |].
  apply (@reads_whatever_the_pieces [bytes "AB"; bytes "CDE"]
           [Sim.Part 0; Sim.Whole; Sim.Part 1]
           [buf3 Byte.x00 Byte.x00 Byte.x00; []; bytes "12"] 0 eq_refl).
Defined.

Lemma skipn_blit : forall p n d,
  n + length d <= length p ->
  skipn (n + length d) (blit p n d) = skipn (n + length d) p.
Proof.
  intros p n d H. unfold blit.
  rewrite (firstn_all2 d) by lia.
  rewrite app_assoc, skipn_app.
  assert (Hl : length (firstn n p ++ d) = n + length d)
    by (rewrite length_app, length_firstn; lia).
  rewrite Hl, Nat.sub_diag, skipn_O.
  rewrite skipn_all2 by lia. reflexivity.
Qed.

(** A reader of the simulated connection never hands over more than the
    buffer has room for. *)
Lemma reader_read_bound : forall rd space net,
  length (read_data (snd (Sim.reader_read rd space net))) <= space.
Proof.
  intros rd space net. unfold Sim.reader_read.
  destruct (Sim.pop net) as [f net0].
  destruct (Sim.reading net0) as [[rd' rest] |]; [| simpl; lia].
  destruct (Nat.eqb rd' rd); [| simpl; lia].
  cbn [snd]. rewrite read_data_mk_read, length_firstn.
  pose proof (quota_le f space). lia.
Qed.

Lemma sim_Read_loop_bound : forall turns rd p n err rwc net,
  n <= length p ->
  n + length (delivered
                (trace (run Sim.handle (Read_loop turns rd p n err)
                          rwc net))) <= length p.
Proof.
  induction turns as [| turns IH]; intros rd p n err rwc net Hn.
  - simpl. lia.
  - cbn [Read_loop]. destruct (n <? length p) eqn:Elt; [| simpl; lia].
    apply Nat.ltb_lt in Elt.
    cbn [run Sim.handle trace]. cbv zeta. rewrite delivered_cons.
    cbn [event_data].
    pose proof (reader_read_bound rd (length p - n) net) as Hb.
    set (x := snd (Sim.reader_read rd (length p - n) net)) in *.
    rewrite length_app.
    destruct (read_err x) as [[| | code] |]; cbn [run trace delivered flat_map length];
      try lia.
    specialize (IH rd (blit p n (read_data x)) (n + length (read_data x))
                  None rwc (fst (Sim.reader_read rd (length p - n) net))).
    rewrite length_blit in IH. specialize (IH ltac:(lia)). lia.
Qed.

(** X8.  Whatever the state of the simulated connection and whatever it
    cuts or fails, a [Read] returns a count within the buffer, the buffer
    keeps its length, the first [n] bytes are the bytes the reader handed
    over, in order, and the bytes after them are as they were. *)
Theorem Read_within_buffer : forall p rwc net,
  let o := run Sim.handle (Read p) rwc net in
  let n := fst (fst (result o)) in
  n <= length p /\
  length (snd (result o)) = length p /\
  firstn n (snd (result o)) = delivered (trace o) /\
  skipn n (snd (result o)) = skipn n p.
Proof.
  intros p rwc net.
  assert (Hloop : forall rd rwc1 net1,
            let o1 := run Sim.handle (Read_loop (length p) rd p 0 None)
                        rwc1 net1 in
            fst (fst (result o1)) <= length p /\
            length (snd (result o1)) = length p /\
            firstn (fst (fst (result o1))) (snd (result o1)) =
              delivered (trace o1) /\
            skipn (fst (fst (result o1))) (snd (result o1)) =
              skipn (fst (fst (result o1))) p).
  { intros rd rwc1 net1 o1.
    destruct (@Read_loop_run Sim.Net Sim.handle (length p) rd p 0 None
                rwc1 net1) as (H1 & H2 & _).
    pose proof (@sim_Read_loop_bound (length p) rd p 0 None rwc1 net1
                  (Nat.le_0_l _)) as Hb.
    fold o1 in H1, H2, Hb. rewrite H1, H2.
    split; [exact Hb |]. split; [apply length_blit |].
    split; [apply (firstn_blit p 0) | apply (skipn_blit p 0)]; exact Hb. }
  unfold Read. cbn [run Read_snapshot fst snd].
  destruct (ws rwc) as [c |] eqn:Ews.
  2:{ simpl. repeat split. lia. }
  destruct (r rwc) as [rd |]; [apply Hloop |].
  cbn [run Sim.handle result trace]. cbv zeta.
  destruct (snd (Sim.next_reader net)) as [rd | e].
  - cbn [run]. destruct (snd (Read_store rd rwc)).
    + rewrite delivered_cons. cbn [event_data app]. apply Hloop.
    + simpl. repeat split. lia.
  - simpl. repeat split. lia.
Qed.

(** ** The outbound bytes *)

Lemma write_count_mk_write : forall k err,
  write_count (Sim.mk_write k err) = k.
Proof. intros [| k] err; reflexivity. Qed.

(** A [Write] to the open writer, whatever its fate: the bytes counted
    are appended to the open message and nothing else changes on the
    outbound side. *)
Lemma writer_write_open : forall wr data net t buf,
  Sim.writing net = Some (wr, t, buf) ->
  let net' := fst (Sim.writer_write wr data net) in
  let x := snd (Sim.writer_write wr data net) in
  write_count x <= length data /\
  Sim.writing net' = Some (wr, t, buf ++ firstn (write_count x) data) /\
  Sim.sent net' = Sim.sent net.
Proof.
  intros wr data net t buf Hw. unfold Sim.writer_write.
  destruct (pop_outbound net) as (Hw0 & Hs0).
  destruct (Sim.pop net) as [f net0]. cbn [fst snd] in *.
  rewrite Hw0, Hw, Nat.eqb_refl.
  cbn [fst snd Sim.writing Sim.sent]. rewrite write_count_mk_write.
  repeat split; try assumption. apply quota_le.
Qed.

Lemma sim_Write_loop_any : forall turns wr p n rwc net t buf,
  Sim.writing net = Some (wr, t, buf ++ firstn n p) ->
  n <= length p ->
  let o := run Sim.handle (Write_loop turns wr p n) rwc net in
  n <= result o <= length p /\
  fields o = rwc /\
  Sim.writing (world o) = Some (wr, t, buf ++ firstn (result o) p) /\
  Sim.sent (world o) = Sim.sent net.
Proof.
  induction turns as [| turns IH]; intros wr p n rwc net t buf Hw Hn.
  - simpl. repeat split; try assumption; lia.
  - cbn [Write_loop]. destruct (n <? length p) eqn:Elt.
    2:{ simpl. repeat split; try assumption; lia. }
    apply Nat.ltb_lt in Elt.
    cbn [run Sim.handle]. cbv zeta. cbn [result fields world].
    destruct (@writer_write_open wr (skipn n p) net t _ Hw)
      as (Hcount & Hw' & Hs').
    rewrite length_skipn in Hcount.
    set (net1 := fst (Sim.writer_write wr (skipn n p) net)) in *.
    set (x := snd (Sim.writer_write wr (skipn n p) net)) in *.
    rewrite <- app_assoc, <- firstn_plus in Hw'.
    destruct (write_err x).
    + cbn [run result fields world].
      repeat split; try assumption; lia.
    + destruct (IH wr p (n + write_count x) rwc net1 t buf Hw')
        as (H1 & H2 & H3 & H4); [lia |].
      repeat split; try assumption; try lia.
      rewrite H4. exact Hs'.
Qed.

Lemma outbound_writing : forall net wr t buf,
  Sim.writing net = Some (wr, t, buf) ->
  outbound net = concat (map snd (Sim.sent net)) ++ buf.
Proof. intros net wr t buf H. unfold outbound. rewrite H. reflexivity. Qed.

(** The loop and the closing, on the writer of the adapter. *)
Lemma sim_Write_body_any : forall wr p rwc net t buf,
  Sim.writing net = Some (wr, t, buf) ->
  w rwc = Some wr ->
  let o := run Sim.handle (Write_body wr p None) rwc net in
  fst (result o) <= length p /\
  drains (fields o) (world o) /\
  ws (fields o) = ws rwc /\
  (snd (result o) = None ->
   outbound (world o) = outbound net ++ firstn (fst (result o)) p).
Proof.
  intros wr p rwc net t buf Hw Hwr. unfold Write_body.
  rewrite run_bind. cbv zeta.
  assert (Hw0 : Sim.writing net = Some (wr, t, buf ++ firstn 0 p))
    by (rewrite firstn_O, app_nil_r; exact Hw).
  destruct (@sim_Write_loop_any (length p) wr p 0 rwc net t buf Hw0
              (Nat.le_0_l _)) as (H1 & H2 & H3 & H4).
  set (o1 := run Sim.handle (Write_loop (length p) wr p 0) rwc net) in *.
  destruct (result o1 =? length p) eqn:E.
  - apply Nat.eqb_eq in E.
    cbn [run Sim.handle result fields world trace fst snd]. cbv zeta.
    unfold Sim.writer_close.
    destruct (pop_outbound (world o1)) as (Hp1 & Hp2).
    destruct (Sim.pop (world o1)) as [f net2]. cbn [fst snd] in *.
    rewrite Hp1, H3, Nat.eqb_refl.
    cbn [fst snd Write_clear]. rewrite H2, Hwr, same_handle_refl.
    split; [lia |]. split; [reflexivity |]. split; [reflexivity |].
    intros Hnil. rewrite Hnil. unfold outbound at 1.
    cbn [Sim.sent Sim.writing].
    rewrite (outbound_writing _ Hw), Hp2, H4, E, firstn_all.
    rewrite map_app, concat_app. cbn [map snd concat].
    rewrite !app_nil_r, app_assoc. reflexivity.
  - cbn [run result fields world fst snd].
    split; [lia |]. split; [| split; [rewrite H2; reflexivity |]].
    + unfold drains. rewrite H2, Hwr. eexists. eexists. exact H3.
    + intros _. rewrite (outbound_writing _ H3), (outbound_writing _ Hw).
      rewrite H4, app_assoc. reflexivity.
Qed.

(** One [Write], whatever the connection cuts or fails. *)
Lemma sim_Write_any : forall p rwc net c,
  ws rwc = Some c ->
  drains rwc net ->
  let o := run Sim.handle (Write p) rwc net in
  fst (result o) <= length p /\
  drains (fields o) (world o) /\
  ws (fields o) = Some c /\
  (snd (result o) = None ->
   outbound (world o) = outbound net ++ firstn (fst (result o)) p).
Proof.
  intros p rwc net c Hws Hdr.
  unfold Write. cbn [run Write_snapshot fst snd]. rewrite Hws.
  unfold drains in Hdr.
  destruct (w rwc) as [wr |] eqn:Ew.
  - destruct Hdr as (t & buf & Hw).
    destruct (@sim_Write_body_any wr p rwc net t buf Hw Ew)
      as (H1 & H2 & H3 & H4).
    rewrite Hws in H3. repeat split; assumption.
  - cbn [run Sim.handle]. cbv zeta. cbn [result fields world].
    unfold Sim.next_writer.
    destruct (pop_outbound net) as (Hp1 & Hp2).
    destruct (Sim.pop net) as [f net0]. cbn [fst snd] in *.
    destruct (Sim.fault f) as [e |].
    { cbn [fst snd run result fields world].
      split; [lia |]. split; [| split; [exact Hws | discriminate]].
      unfold drains. rewrite Ew, Hp1. exact Hdr. }
    destruct (Sim.closed net0).
    { cbn [fst snd run result fields world].
      split; [lia |]. split; [| split; [exact Hws | discriminate]].
      unfold drains. rewrite Ew, Hp1. exact Hdr. }
    cbn [fst snd run]. unfold Write_store. rewrite Hws. cbn [fst snd].
    rewrite Hp1, Hdr.
    match goal with
    | |- context [run Sim.handle (Write_body ?wr p None) ?rwc1 ?net1] =>
      destruct (@sim_Write_body_any wr p rwc1 net1 TextMessage []
                  eq_refl eq_refl) as (H1 & H2 & H3 & H4)
    end.
    cbn [ws set_w] in H3. rewrite Hws in H3.
    repeat split; try assumption.
    intros Hnil. rewrite (H4 Hnil). f_equal.
    unfold outbound. cbn [Sim.sent Sim.writing].
    rewrite Hp2, Hdr. reflexivity.
Qed.

(** X9.  Over any sequence of [Write] calls that all return a nil error,
    whatever the connection cuts or fails (the calls cut short by an
    error of the writer among them), the bytes handed to the connection,
    emitted or in the message still open, are the slices [p[:n]] of the
    calls in order: none lost, none twice.  Every count is within its
    buffer. *)
Theorem writes_are_the_stream : forall ps rwc net c,
  ws rwc = Some c ->
  drains rwc net ->
  Forall2 (fun p x => fst x <= length p) ps (write_results ps rwc net) /\
  (Forall (fun x => snd x = None) (write_results ps rwc net) ->
   outbound (snd (writes ps rwc net)) = outbound net ++ written ps rwc net).
Proof.
  induction ps as [| p ps IH]; intros rwc net c Hws Hdr.
  - split; [constructor |]. intros _. simpl. rewrite app_nil_r. reflexivity.
  - cbn [write_results writes written]. cbv zeta.
    destruct (@sim_Write_any p rwc net c Hws Hdr) as (H1 & H2 & H3 & H4).
    destruct (IH _ _ c H3 H2) as [IH1 IH2].
    split; [constructor; assumption |].
    intros Hall. inversion Hall as [| x xs Hx Hxs]; subst.
    rewrite (IH2 Hxs), (H4 Hx), app_assoc. reflexivity.
Qed.

(** "ab" cut short after one byte by an error of the writer, then "cd":
    the outbound bytes are "a", "cd". *)
Lemma writes_are_the_stream_witness :
  let rwc := NewReadWriteCloser (Some 0) in
  let net := Sim.connect [] [Sim.Whole; Sim.Broken 1 7] in
  (ws rwc = Some 0 /\ drains rwc net /\
   Forall (fun x => snd x = None)
     (write_results [bytes "ab"; bytes "cd"] rwc net)) /\
  outbound (snd (writes [bytes "ab"; bytes "cd"] rwc net)) = bytes "acd".
Proof.
  assert (H : Forall (fun x : nat * option error => snd x = None)
                (write_results [bytes "ab"; bytes "cd"]
                   (NewReadWriteCloser (Some 0))
                   (Sim.connect [] [Sim.Whole; Sim.Broken 1 7])))
    by (repeat constructor).
  split; [split; [reflexivity | split; [reflexivity | exact H]] |].
  apply (proj2 (@writes_are_the_stream [bytes "ab"; bytes "cd"]
                  (NewReadWriteCloser (Some 0))
                  (Sim.connect [] [Sim.Whole; Sim.Broken 1 7]) 0
                  eq_refl eq_refl) H).
Defined.

(** ** Writers that take a buffer whole or not at all *)









(** ** Messages out, bytes in *)

(** X10.  Writes one after the other on an adapter with no writer open,
    the connection failing no call: every call returns the length of its
    buffer and nil, the messages emitted are the buffers, one text
    message for each call and in the order of the calls (an empty buffer
    gives an empty message), and the adapter is left as it was, with no
    writer and no message open. *)
Theorem writes_one_message_each : forall ps rwc net c,
  ws rwc = Some c -> w rwc = None ->
  Sim.writing net = None -> Sim.closed net = false ->
  forallb calm (Sim.script net) = true ->
  write_results ps rwc net = map (fun p => (length p, None)) ps /\
  Sim.sent (snd (writes ps rwc net)) =
    Sim.sent net ++ map (fun p => (TextMessage, p)) ps /\
  fst (writes ps rwc net) = rwc /\
  Sim.writing (snd (writes ps rwc net)) = None.
Proof.
  induction ps as [| p ps IH]; intros rwc net c Hws Hw Hwtg Hcl Hcalm.
  - simpl. rewrite app_nil_r. repeat split. exact Hwtg.
  - cbn [write_results writes map]. cbv zeta.
    destruct (@sim_Write p rwc net c Hws Hw Hwtg Hcl Hcalm)
      as (H1 & H2 & H3 & H4 & H5 & H6).
    rewrite H2 in *.
    destruct (IH rwc _ c Hws Hw H4 H5 H6) as (I1 & I2 & I3 & I4).
    rewrite H1, I1, I2, H3, <- app_assoc.
    repeat split; assumption.
Qed.

Lemma writes_one_message_each_witness :
  let rwc := NewReadWriteCloser (Some 0) in
  let net := Sim.connect [] [Sim.Whole; Sim.Part 0] in
  forallb calm (Sim.script net) = true /\
  Sim.sent (snd (writes [bytes "hello"; []; bytes "!"] rwc net)) =
  [(TextMessage, bytes "hello"); (TextMessage, []); (TextMessage, bytes "!")].
Proof.
  split; [reflexivity |].
  apply (@writes_one_message_each [bytes "hello"; []; bytes "!"]
           (NewReadWriteCloser (Some 0))
           (Sim.connect [] [Sim.Whole; Sim.Part 0]) 0
           eq_refl eq_refl eq_refl eq_refl eq_refl).
Defined.

(** X11.  What one adapter writes, another reads back.  The buffers [ps]
    written through an adapter on a connection that fails no call go out
    as the messages [ps]; reads of any sizes through an adapter on a
    connection that delivers those messages return, with what is left
    unread, the bytes of [ps] in order; and enough reads into buffers
    with room, none failed, return all of them. *)
Theorem write_read_round_trip : forall ps qs sc1 sc2 c1 c2,
  forallb calm sc1 = true ->
  let wire := map snd (Sim.sent (snd (writes ps (NewReadWriteCloser (Some c1))
                                        (Sim.connect [] sc1)))) in
  let back := Sim.reads qs (NewReadWriteCloser (Some c2))
                (Sim.connect wire sc2) in
  wire = ps /\
  concat (fst (fst back)) ++ Sim.unread (snd back) = concat ps /\
  (forallb calm sc2 = true ->
   Forall (fun q => q <> []) qs ->
   2 * (length (concat ps) + length ps) <= length qs ->
   concat (fst (fst back)) = concat ps).
Proof.
  intros ps qs sc1 sc2 c1 c2 Hcalm wire back.
  assert (Hwire : wire = ps).
  { subst wire.
    rewrite (@sim_writes ps (NewReadWriteCloser (Some c1))
               (Sim.connect [] sc1) c1 eq_refl eq_refl eq_refl eq_refl Hcalm).
    cbn [Sim.connect Sim.sent app]. rewrite map_map. cbn [snd].
    apply map_id. }
  assert (Hcons : concat (fst (fst back)) ++ Sim.unread (snd back) =
                  concat wire).
  { subst back.
    rewrite (@sim_reads qs (NewReadWriteCloser (Some c2))
               (Sim.connect wire sc2) c2); reflexivity. }
  split; [exact Hwire |]. rewrite <- Hwire.
  split; [exact Hcons |].
  intros Hcalm2 Hqs Hlen.
  assert (Hend : Sim.unread (snd back) = []).
  { subst back.
    apply (@sim_reads_reach_the_end qs (NewReadWriteCloser (Some c2))
             (Sim.connect wire sc2) c2); try reflexivity; try assumption.
    unfold backlog, Sim.unread.
    cbn [Sim.connect Sim.reading Sim.inbox NewReadWriteCloser r app].
    lia. }
  rewrite Hend, app_nil_r in Hcons. exact Hcons.
Qed.

Lemma write_read_round_trip_witness :
  let ps := [bytes "hello "; bytes "world"] in
  let qs := repeat (bytes "1234") 26 in
  let wire := map snd (Sim.sent (snd (writes ps (NewReadWriteCloser (Some 0))
                                        (Sim.connect [] [])))) in
  let back := Sim.reads qs (NewReadWriteCloser (Some 1))
                (Sim.connect wire [Sim.Part 1]) in
  wire = ps /\ concat (fst (fst back)) = bytes "hello world".
Proof.
  pose proof (@write_read_round_trip [bytes "hello "; bytes "world"]
                (repeat (bytes "1234") 26) [] [Sim.Part 1] 0 1 eq_refl)
    as H.
  cbv zeta in H. destruct H as (H1 & _ & H3).
  split; [exact H1 |].
  apply H3.
  - reflexivity.
  - apply Forall_forall. intros q Hq. apply repeat_spec in Hq.
    subst q. discriminate.
  - apply Nat.leb_le. reflexivity.
Defined.

(** ** The further properties at work *)

(** "hello" of which the reader hands over two bytes and fails. *)
Lemma Read_returns_reader_error_witness :
  let ev := Ev (ReaderRead 0 5)
              (ReadSome Byte.x68 [Byte.x65] (Some (ErrOther 7))) in
  let o := run Sim.handle (Read (bytes "12345"))
             (NewReadWriteCloser (Some 0))
             (Sim.connect [bytes "hello"] [Sim.Whole; Sim.Broken 2 7]) in
  (In ev (trace o) /\ event_read_err ev = Some (ErrOther 7) /\
   ErrOther 7 <> EOF) /\
  snd (fst (result o)) = Some (ErrOther 7) /\
  r (fields o) <> None.
Proof.
  assert (H1 : In (Ev (ReaderRead 0 5)
                     (ReadSome Byte.x68 [Byte.x65] (Some (ErrOther 7))))
                 (trace (run Sim.handle (Read (bytes "12345"))
                           (NewReadWriteCloser (Some 0))
                           (Sim.connect [bytes "hello"]
                              [Sim.Whole; Sim.Broken 2 7]))))
    by (right; left; reflexivity).
  assert (H2 : ErrOther 7 <> EOF) by discriminate.
  split; [split; [exact H1 | split; [reflexivity | exact H2]] |].
  destruct (@Read_returns_reader_error Sim.Net Sim.handle (bytes "12345")
              (NewReadWriteCloser (Some 0))
              (Sim.connect [bytes "hello"] [Sim.Whole; Sim.Broken 2 7])
              _ (ErrOther 7) H1 eq_refl H2) as (R1 & _ & _ & R4 & _).
  split; [exact R1 | exact R4].
Defined.

(** "hi" written in full, and a closing of the writer that fails. *)
Lemma Write_finalizes_last_witness :
  let o := run Sim.handle (Write (bytes "hi")) (NewReadWriteCloser (Some 0))
             (Sim.connect [] [Sim.Whole; Sim.Whole; Sim.Broken 0 9]) in
  existsb is_WriterClose (trace o) = true /\
  result o = (2, Some (ErrOther 9)) /\
  w (fields o) = None.
Proof.
  split; [reflexivity |]. split; [reflexivity |].
  destruct (@Write_finalizes_last Sim.Net Sim.handle (bytes "hi")
              (NewReadWriteCloser (Some 0))
              (Sim.connect [] [Sim.Whole; Sim.Whole; Sim.Broken 0 9]) 0
              eq_refl eq_refl) as (wr & tr' & _ & _ & _ & H & _).
  exact H.
Defined.

(** A [Close] that has taken the connection, and a [Read] started
    after it. *)
Lemma connection_lifecycle_witness :
  exists cfg1 cfg2,
    (steps Sim.handle (initial (Some 0) (Sim.connect [] [])) cfg1 /\
     steps Sim.handle cfg1 cfg2) /\
    ws (c_fields cfg1) = None /\ ws (c_fields cfg2) = None.
Proof.
  eassert (H1 : steps Sim.handle (initial (Some 0) (Sim.connect [] [])) _).
  { eapply steps_next. eapply steps_next.
    - apply steps_refl.
    - apply step_start with (o := OpClose).
    - eapply step_lock with (ts1 := []) (ts2 := []) (sec := Close_take). }
  eassert (H2 : steps Sim.handle _ _).
  { eapply steps_next.
    - apply steps_refl.
    - apply step_start with (o := OpRead []). }
  eexists. eexists. split; [split; [exact H1 | exact H2] |].
  split; [reflexivity |].
  apply (proj2 (connection_lifecycle H1 H2)). reflexivity.
Defined.

(** One [Close] run to its end: the one closing of the connection. *)
Lemma connection_closed_once_witness :
  exists cfg,
    steps (logged Sim.handle) (initial (Some 0) (Sim.connect [] [], []))
      cfg /\
    1 <= length (filter is_ConnClose (snd (c_world cfg))) /\
    length (filter is_ConnClose (snd (c_world cfg))) <= 1.
Proof.
  eassert (H : steps (logged Sim.handle)
                 (initial (Some 0) (Sim.connect [] [], [])) _).
  { eapply steps_next. eapply steps_next. eapply steps_next.
    - apply steps_refl.
    - apply step_start with (o := OpClose).
    - eapply step_lock with (ts1 := []) (ts2 := []) (sec := Close_take).
    - eapply step_call with (ts1 := []) (ts2 := []) (c := ConnClose 0). }
  eexists. split; [exact H |].
  split; [apply Nat.leb_le; reflexivity |].
  apply (connection_closed_once H).
Defined.

(** ** An empty buffer, the other direction, and the closing *)

(** X12.  On a connection that fails no call, a [Read] into an empty
    buffer returns (0, nil) when a message is at hand, opening it if
    need be, and the error of the connection when none is; either way
    the reads that follow return what they would have returned without
    it. *)
Theorem empty_read_is_transparent : forall rwc net c ps,
  ready c rwc net ->
  let o := run Sim.handle (Read []) rwc net in
  result o =
    match at_hand rwc net with
    | Some _ => (0, None, [])
    | None => (0, Some Sim.errNoMessage, [])
    end /\
  read_results ps (fields o) (world o) = read_results ps rwc net.
Proof.
  intros rwc net c ps Hready o.
  destruct (@sim_Read_deframes [] rwc net c Hready) as (H1 & H2 & _).
  pose proof (@sim_Read_ready [] rwc net c Hready) as Hready'.
  fold o in H1, H2, Hready'.
  rewrite (@sim_read_results ps _ _ c Hready'),
          (@sim_read_results ps _ _ c Hready), H1, H2.
  destruct (at_hand rwc net) as [[rest ms] |]; split; reflexivity.
Qed.

Lemma empty_read_is_transparent_witness :
  let rwc := NewReadWriteCloser (Some 0) in
  let net := Sim.connect [bytes "AB"] [Sim.Part 0] in
  let o := run Sim.handle (Read []) rwc net in
  ready 0 rwc net /\
  result o = (0, None, []) /\
  read_results [bytes "123"] (fields o) (world o) =
  read_results [bytes "123"] rwc net.
Proof.
  assert (H : ready 0 (NewReadWriteCloser (Some 0))
                (Sim.connect [bytes "AB"] [Sim.Part 0]))
    by (repeat split).
  split; [exact H |].
  apply (@empty_read_is_transparent (NewReadWriteCloser (Some 0))
           (Sim.connect [bytes "AB"] [Sim.Part 0]) 0 [bytes "123"] H).
Defined.

Section Directions.

Variable World : Type.
Variable handle : forall X : Type, call X -> World -> World * X.

(** X13.  Whatever the connection answers, a [Read] leaves the writer and
    the connection of the adapter as they are, and a [Write] leaves the
    reader and the connection as they are: a call in one direction never
    disturbs the message of the other. *)
Theorem directions_apart : forall p rwc net,
  (w (fields (run handle (Read p) rwc net)) = w rwc /\
   ws (fields (run handle (Read p) rwc net)) = ws rwc) /\
  (r (fields (run handle (Write p) rwc net)) = r rwc /\
   ws (fields (run handle (Write p) rwc net)) = ws rwc).
Proof.
  intros p rwc net. split.
  - apply (@run_keeps (fun s => w s = w rwc /\ ws s = ws rwc) World handle
             _ (Read p)); [| split; reflexivity].
    apply Read_respects.
    + intros rd s [H1 H2]. unfold Read_store.
      destruct (ws s) eqn:E; simpl; rewrite ?E; split; assumption.
    + intros rd s [H1 H2]. unfold Read_clear. simpl.
      destruct (same_handle (r s) (Some rd)); simpl; split; assumption.
  - apply (@run_keeps (fun s => r s = r rwc /\ ws s = ws rwc) World handle
             _ (Write p)); [| split; reflexivity].
    apply Write_respects.
    + intros wr s [H1 H2]. unfold Write_store.
      destruct (ws s) eqn:E; simpl; rewrite ?E; split; assumption.
    + intros wr s [H1 H2]. unfold Write_clear. simpl.
      destruct (same_handle (w s) (Some wr)); simpl; split; assumption.
Qed.

End Directions.



(** A [Close] that overlaps a [Write] can close the writer of that
    [Write] a second time: the closings of writers are not bounded as
    the closings of the connection are.  Here the second closing fails,
    [Close] returns its error, and the connection stays open while the
    adapter is closed. *)
Lemma writer_closed_twice :
  exists cfg ts,
    steps (logged Sim.handle) (initial (Some 0) (Sim.connect [] [], []))
      cfg /\
    length (filter is_WriterClose (snd (c_world cfg))) = 2 /\
    c_pool cfg = Task (Ret (0, @None error)) ::
                 Task (Ret (Some Sim.errWriteClosed)) :: ts /\
    c_fields cfg = all_clear /\
    Sim.closed (fst (c_world cfg)) = false.
Proof.
  eassert (H : steps (logged Sim.handle)
                 (initial (Some 0) (Sim.connect [] [], [])) _).
  { eapply steps_next. eapply steps_next. eapply steps_next.
    eapply steps_next. eapply steps_next. eapply steps_next.
    eapply steps_next. eapply steps_next. eapply steps_next.
    - apply steps_refl.
    - apply step_start with (o := OpWrite []).
    - eapply step_lock with (ts1 := []) (ts2 := []) (sec := Write_snapshot).
    - eapply step_call with (ts1 := []) (ts2 := [])
                            (c := NextWriter 0 TextMessage).
    - eapply step_lock with (ts1 := []) (ts2 := []) (sec := Write_store 0).
    - apply step_start with (o := OpClose).
    - eapply step_lock with (ts1 := [_]) (ts2 := []) (sec := Close_take).
    - eapply step_call with (ts1 := []) (ts2 := [_]) (c := WriterClose 0).
    - eapply step_call with (ts1 := [_]) (ts2 := []) (c := WriterClose 0).
    - eapply step_lock with (ts1 := []) (ts2 := [_]) (sec := Write_clear 0). }
  eexists. exists []. split; [exact H |]. repeat split.
Qed.
